(** * jedi.inference.compiled.subprocess: a shallow embedding

    The host side ([CompiledSubprocess], [InferenceStateSubprocess],
    [AccessHandle]) and the worker side ([Listener]) of jedi's compiled
    subprocess, with the properties of its request/response protocol. *)

From Stdlib Require Import ZArith Lia.
From stdpp Require Import gmap strings list fin_maps.

Open Scope Z_scope.
Open Scope string_scope.
Open Scope list_scope.

(** ** Python values *)

(** The exception classes the module names or relies on.  [SystemExit],
    [KeyboardInterrupt] and [GeneratorExit] derive from [BaseException]
    only; everything else derives from [Exception]. *)
Inductive exc_class :=
| KeyError | ValueError | TypeError | AttributeError | IndexError
| EOFError | OSError | InternalError
| SystemExit | KeyboardInterrupt | GeneratorExit
| UserError (name : string).

(** [isinstance(e, Exception)]. *)
Definition is_Exception (c : exc_class) : bool :=
  match c with
  | SystemExit | KeyboardInterrupt | GeneratorExit => false
  | _ => true
  end.

(** The objects that travel through the pipe.  [H] is what stands for an
    [AccessHandle]: an object reference on either side, the bare id on the
    wire. *)
#[local] Unset Elimination Schemes.
Inductive value (H : Type) : Type :=
| VNone
| VBool (b : bool)
| VInt (z : Z)
| VStr (s : string)
| VSlice (start stop step : option Z)
| VTuple (items : list (value H))
| VList (items : list (value H))
| VDict (items : list (string * value H))
| VSignatureParam (fields : list (value H))
| VAccessHandle (h : H)
| VAccessPath (accesses : value H)
| VException (c : exc_class) (args : list (value H)).
#[local] Set Elimination Schemes.

Arguments VNone {H}.
Arguments VBool {H} b.
Arguments VInt {H} z.
Arguments VStr {H} s.
Arguments VSlice {H} start stop step.
Arguments VTuple {H} items.
Arguments VList {H} items.
Arguments VDict {H} items.
Arguments VSignatureParam {H} fields.
Arguments VAccessHandle {H} h.
Arguments VAccessPath {H} accesses.
Arguments VException {H} c args.

Section value_induction.
Context {H : Type} (P : value H → Prop).
Hypothesis HNone : P VNone.
Hypothesis HBool : ∀ b, P (VBool b).
Hypothesis HInt : ∀ z, P (VInt z).
Hypothesis HStr : ∀ s, P (VStr s).
Hypothesis HSlice : ∀ a b c, P (VSlice a b c).
Hypothesis HTuple : ∀ l, Forall P l → P (VTuple l).
Hypothesis HList : ∀ l, Forall P l → P (VList l).
Hypothesis HDict : ∀ l, Forall (λ kv, P kv.2) l → P (VDict l).
Hypothesis HSig : ∀ l, Forall P l → P (VSignatureParam l).
Hypothesis HHandle : ∀ h, P (VAccessHandle h).
Hypothesis HPath : ∀ v, P v → P (VAccessPath v).
Hypothesis HExc : ∀ c l, Forall P l → P (VException c l).

Fixpoint value_nested_ind (v : value H) : P v :=
  let all := fix all (l : list (value H)) : Forall P l :=
    match l with
    | [] => List.Forall_nil P
    | x :: r => @List.Forall_cons _ P x r (value_nested_ind x) (all r)
    end in
  match v with
  | VNone => HNone
  | VBool b => HBool b
  | VInt z => HInt z
  | VStr s => HStr s
  | VSlice a b c => HSlice a b c
  | VTuple l => HTuple l (all l)
  | VList l => HList l (all l)
  | VDict l =>
      HDict l ((fix alld (l : list (string * value H))
                  : Forall (λ kv, P kv.2) l :=
                  match l with
                  | [] => List.Forall_nil _
                  | kv :: r =>
                      @List.Forall_cons _ (λ kv, P kv.2) kv r
                        (value_nested_ind kv.2) (alld r)
                  end) l)
  | VSignatureParam l => HSig l (all l)
  | VAccessHandle h => HHandle h
  | VAccessPath a => HPath a (value_nested_ind a)
  | VException c l => HExc c l (all l)
  end.
End value_induction.

(** Replace every handle of a value, everywhere, keeping the rest. *)
Fixpoint vmap {H H'} (f : H → H') (v : value H) : value H' :=
  match v with
  | VNone => VNone
  | VBool b => VBool b
  | VInt z => VInt z
  | VStr s => VStr s
  | VSlice a b c => VSlice a b c
  | VTuple l => VTuple (map (vmap f) l)
  | VList l => VList (map (vmap f) l)
  | VDict l => VDict (map (λ kv, (kv.1, vmap f kv.2)) l)
  | VSignatureParam l => VSignatureParam (map (vmap f) l)
  | VAccessHandle h => VAccessHandle (f h)
  | VAccessPath a => VAccessPath (vmap f a)
  | VException c l => VException c (map (vmap f) l)
  end.

(** An exception object: its class and its [args] tuple. *)
Record exception (H : Type) := Exc {
  exc_type : exc_class;
  exc_args : list (value H)
}.
Arguments Exc {H} exc_type exc_args.
Arguments exc_type {H} e.
Arguments exc_args {H} e.

(** What a call does: return a value or raise. *)
Inductive outcome (H : Type) :=
| Return (v : value H)
| Raise (e : exception H).
Arguments Return {H} v.
Arguments Raise {H} e.

(** Threading a state through a list, left to right (a comprehension or a
    [for] loop whose body has effects). *)
Definition mapS {A B S : Type} (f : A → S → B * S) : list A → S → list B * S :=
  fix go l s :=
    match l with
    | [] => ([], s)
    | x :: r =>
        let '(y, s1) := f x s in
        let '(r', s2) := go r s1 in
        (y :: r', s2)
    end.

(** ** Handles and their registries *)

(** Object references (Python object identity). *)
Definition addr := nat.

(** [DirectObjectAccess(infer_state, obj)], the worker-side wrapper of the
    inspected object [obj], which is kept by its identity. *)
Record DirectObjectAccess := { _obj : Z }.

(** A memoisation key: the positional arguments of the decorated method
    and its keyword arguments. *)
Definition memo_key : Type := list (value addr) * list (string * value addr).

(** [class AccessHandle].  An attribute that was never assigned is [None]:
    an unpickled handle has only its [id]. *)
Record AccessHandle := {
  access : option DirectObjectAccess;
  _subprocess : option Z;
  id : Z;
  _memoize_method_dct : list (memo_key * value addr)
}.

(** [AccessHandle.__init__(self, subprocess, access, id_)]. *)
Definition AccessHandle__init__ (subprocess : Z) (acc : DirectObjectAccess)
    (id_ : Z) : AccessHandle :=
  {| access := Some acc; _subprocess := Some subprocess; id := id_;
     _memoize_method_dct := [] |}.

(** [AccessHandle.add_subprocess]. *)
Definition add_subprocess (subprocess : Z) (self : AccessHandle) : AccessHandle :=
  {| access := access self; _subprocess := Some subprocess; id := id self;
     _memoize_method_dct := _memoize_method_dct self |}.

(** [AccessHandle.__getstate__]. *)
Definition __getstate__ (self : AccessHandle) : Z := id self.

(** [AccessHandle.__setstate__], on the object pickle has just made without
    calling [__init__]: the state becomes the id and no other attribute
    exists. *)
Definition __setstate__ (state : Z) : AccessHandle :=
  {| access := None; _subprocess := None; id := state;
     _memoize_method_dct := [] |}.

(** [class _InferenceStateProcess]: [_handles] maps an id to the handle
    registered for it; [R] is how this side refers to a handle. *)
Record _InferenceStateProcess (R : Type) := {
  _infer_state_id : Z;
  _handles : gmap Z R
}.
Arguments _infer_state_id {R} _.
Arguments _handles {R} _.

(** [get_access_handle]: [None] is the [KeyError] of [self._handles[id_]]. *)
Definition get_access_handle {R} (self : _InferenceStateProcess R) (id_ : Z)
    : option R :=
  _handles self !! id_.

(** [set_access_handle], [handle] being the object [r] whose id is [id_]. *)
Definition set_access_handle {R} (id_ : Z) (r : R)
    (self : _InferenceStateProcess R) : _InferenceStateProcess R :=
  {| _infer_state_id := _infer_state_id self;
     _handles := <[id_ := r]> (_handles self) |}.

(** The host's objects: the handles it holds, by reference. *)
Abbreviation heap := (gmap addr AccessHandle).

(** [InferenceStateSubprocess._convert_access_handles], on the registry of
    [self] and the heap.  The branches are the source's, in its order; what
    is none of the five types is returned as it is. *)
Fixpoint _convert_access_handles (obj : value addr)
    (σ : _InferenceStateProcess addr * heap)
    : value addr * (_InferenceStateProcess addr * heap) :=
  match obj with
  | VSignatureParam fields =>
      let '(l, σ') := mapS _convert_access_handles fields σ in
      (VSignatureParam l, σ')
  | VTuple items =>
      let '(l, σ') := mapS _convert_access_handles items σ in
      (VTuple l, σ')
  | VList items =>
      let '(l, σ') := mapS _convert_access_handles items σ in
      (VList l, σ')
  | VAccessHandle a =>
      match σ.2 !! a with
      | Some h =>
          match get_access_handle σ.1 (id h) with
          | Some a' => (VAccessHandle a', σ)
          | None =>
              (VAccessHandle a,
               (set_access_handle (id h) a σ.1,
                <[a := add_subprocess (_infer_state_id σ.1) h]> σ.2))
          end
      | None => (obj, σ) (* a reference always has its object *)
      end
  | VAccessPath accesses =>
      let '(acc, σ') := _convert_access_handles accesses σ in
      (VAccessPath acc, σ')
  | _ => (obj, σ)
  end.

(** The handles [_convert_access_handles] comes across, in the order of its
    walk: through tuples, lists, [SignatureParam]s and [AccessPath]s. *)
Fixpoint walked {H} (v : value H) : list H :=
  match v with
  | VTuple l | VList l | VSignatureParam l => flat_map walked l
  | VAccessHandle a => [a]
  | VAccessPath v => walked v
  | _ => []
  end.

(** Every handle inside a value, mappings included. *)
Fixpoint handles {H} (v : value H) : list H :=
  match v with
  | VTuple l | VList l | VSignatureParam l => flat_map handles l
  | VDict l => flat_map (λ kv, handles kv.2) l
  | VAccessHandle a => [a]
  | VAccessPath v => handles v
  | VException _ l => flat_map handles l
  | _ => []
  end.

(** The id of the handle at [a]. *)
Definition id_at (hp : heap) (a : addr) : option Z := id <$> hp !! a.

(** The first handle of [l] whose id is [i]. *)
Fixpoint first_seen (hp : heap) (i : Z) (l : list addr) : option addr :=
  match l with
  | [] => None
  | a :: r => if decide (id_at hp a = Some i) then Some a else first_seen hp i r
  end.

(** The instance a registry holds for the id of the handle at [a]. *)
Definition canonical (reg : gmap Z addr) (hp : heap) (a : addr) : addr :=
  match id_at hp a with
  | Some i => default a (reg !! i)
  | None => a
  end.

(** A value with each handle on the walk replaced by the registry's
    instance for its id, and everything else as it was. *)
Fixpoint canon (reg : gmap Z addr) (hp : heap) (v : value addr) : value addr :=
  match v with
  | VTuple l => VTuple (map (canon reg hp) l)
  | VList l => VList (map (canon reg hp) l)
  | VSignatureParam l => VSignatureParam (map (canon reg hp) l)
  | VAccessHandle a => VAccessHandle (canonical reg hp a)
  | VAccessPath v => VAccessPath (canon reg hp v)
  | _ => v
  end.

(** The type and the element order of a value: its handles forgotten. *)
Definition shape {H} (v : value H) : value unit := vmap (λ _, ()) v.

(** [o] if it is there, [o'] otherwise. *)
Definition or_else {A} (o o' : option A) : option A :=
  match o with Some x => Some x | None => o' end.

(** What a conversion that came across the handles [W] has done to the
    registry and to the heap. *)
Definition conv_post (W : list addr)
    (σ σ' : _InferenceStateProcess addr * heap) : Prop :=
  _infer_state_id σ'.1 = _infer_state_id σ.1
  ∧ (∀ i, _handles σ'.1 !! i = or_else (_handles σ.1 !! i) (first_seen σ.2 i W))
  ∧ (∀ a, σ'.2 !! a = σ.2 !! a
          ∨ σ'.2 !! a = add_subprocess (_infer_state_id σ.1) <$> σ.2 !! a)
  ∧ (∀ i a, _handles σ.1 !! i = None → _handles σ'.1 !! i = Some a →
            ∃ h, σ'.2 !! a = Some h
                 ∧ _subprocess h = Some (_infer_state_id σ.1)).

(** Every reference of [W] has its object. *)
Definition allocated (hp : heap) (W : list addr) : Prop :=
  ∀ a, a ∈ W → is_Some (id_at hp a).

(** What one conversion achieves. *)
Definition convert_ok (v : value addr) : Prop :=
  ∀ σ, allocated σ.2 (walked v) →
    let r := _convert_access_handles v σ in
    conv_post (walked v) σ r.2 ∧ r.1 = canon (_handles r.2.1) σ.2 v.

(** A registry maps an id only to a handle that has this id. *)
Definition reg_consistent (σ : _InferenceStateProcess addr * heap) : Prop :=
  ∀ i a, _handles σ.1 !! i = Some a → id_at σ.2 a = Some i.

(** What the claim says of a result: every handle inside what
    [_convert_access_handles] returns is the instance the registry holds
    for its id. *)
Definition every_handle_canonical (obj : value addr)
    (σ : _InferenceStateProcess addr * heap) : Prop :=
  let r := _convert_access_handles obj σ in
  ∀ a, a ∈ handles r.1 →
    ∃ i, id_at r.2.2 a = Some i ∧ _handles r.2.1 !! i = Some a.

(** ** Pickling *)

(** A request [(infer_state_id, function, args, kwargs)].  A function is
    pickled by reference: it travels as its name in [functions]. *)
Record request (H : Type) := Request {
  req_infer_state_id : option Z;
  req_function : option string;
  req_args : list (value H);
  req_kwargs : list (string * value H)
}.
Arguments Request {H} _ _ _ _.
Arguments req_infer_state_id {H} _.
Arguments req_function {H} _.
Arguments req_args {H} _.
Arguments req_kwargs {H} _.

(** A response [(is_exception, traceback, result)]; [result] is what the
    call returned, or the exception object. *)
Record response (H : Type) := Response {
  is_exception : bool;
  traceback : option string;
  result : value H
}.
Arguments Response {H} _ _ _.
Arguments is_exception {H} _.
Arguments traceback {H} _.
Arguments result {H} _.

Definition kwmap {H H'} (f : H → H') (kw : list (string * value H))
    : list (string * value H') :=
  map (λ kv, (kv.1, vmap f kv.2)) kw.

Definition reqmap {H H'} (f : H → H') (r : request H) : request H' :=
  Request (req_infer_state_id r) (req_function r)
    (map (vmap f) (req_args r)) (kwmap f (req_kwargs r)).

Definition respmap {H H'} (f : H → H') (r : response H) : response H' :=
  Response (is_exception r) (traceback r) (vmap f (result r)).

(** In the worker a handle is kept by value.  Pickling an object there
    takes the state of each handle, unpickling makes each handle from its
    state. *)
Abbreviation wvalue := (value AccessHandle).

Definition pickle_dump_value (v : wvalue) : value Z := vmap __getstate__ v.
Definition pickle_load_value (v : value Z) : wvalue := vmap __setstate__ v.

(** ** The worker: [class Listener] *)

(** The [InferenceState] of jedi, as far as this module goes: the object
    the listener makes for a context, with its [compiled_subprocess] (an
    [InferenceStateSameProcess], whose registry holds the live handles) and
    whatever else the functions keep in it. *)
Record InferenceState := {
  compiled_subprocess : _InferenceStateProcess AccessHandle;
  attributes : gmap string wvalue
}.

(** [InferenceState(project=None, environment=InterpreterEnvironment())],
    made at [a]. *)
Definition InferenceState__init__ (a : addr) : InferenceState :=
  {| compiled_subprocess := {| _infer_state_id := Z.of_nat a; _handles := ∅ |};
     attributes := ∅ |}.

(** [_InferenceStateProcess.get_or_create_access_handle] in the worker,
    [obj] being the object whose [id(obj)] is [id_]. *)
Definition get_or_create_access_handle (id_ : Z)
    (self : _InferenceStateProcess AccessHandle)
    : AccessHandle * _InferenceStateProcess AccessHandle :=
  match get_access_handle self id_ with
  | Some h => (h, self)
  | None =>
      let handle :=
        AccessHandle__init__ (_infer_state_id self) {| _obj := id_ |} id_ in
      (handle, set_access_handle (id handle) handle self)
  end.

(** An argument of a call in the worker: the session, or a value. *)
Inductive pyobj :=
| ArgInferenceState (infer_state : InferenceState)
| ArgValue (v : wvalue).

(** One call of a function of [functions], as recorded: its name, the
    session it was given if any, and its other arguments. *)
Record call := Call {
  call_function : string;
  call_session : option addr;
  call_args : list wvalue;
  call_kwargs : list (string * wvalue)
}.

(** [class Listener]; its [_process] is set in [__init__] and never used. *)
Record Listener := {
  _infer_states : gmap Z addr;
  listener_pickle_protocol : Z
}.

(** The worker process: the listener, the sessions made so far (a session
    is referred to by its place), and the calls made so far. *)
Record Worker := {
  listener : Listener;
  memory : list InferenceState;
  calls : list call
}.

(** [Listener(pickle_protocol)] in a new process. *)
Definition Listener__init__ (pickle_protocol : Z) : Worker :=
  {| listener := {| _infer_states := ∅; listener_pickle_protocol := pickle_protocol |};
     memory := [];
     calls := [] |}.

(** How the listener loop ends: [exit(code)], or an exception nobody
    caught. *)
Inductive exit_status :=
| Exited (code : Z)
| Uncaught (e : exception AccessHandle).

(** The exit code of the process, where the interpreter fixes it: the
    code of [exit(code)] and of an uncaught [SystemExit] when it is an
    exit status (no argument and [None] are zero, a boolean is its
    integer), and 1 for any other argument of [SystemExit] and for an
    uncaught exception, whose traceback is printed.  [None] where it is
    not fixed: an integer that is no exit status, and an uncaught
    [KeyboardInterrupt], which ends the process with exit code 1 or by
    the signal, by the version of the interpreter. *)
Definition exit_code (s : exit_status) : option Z :=
  match s with
  | Exited c => if bool_decide (0 ≤ c < 256) then Some c else None
  | Uncaught e =>
      match exc_type e, exc_args e with
      | SystemExit, [] | SystemExit, [VNone] => Some 0
      | SystemExit, [VBool b] => Some (if b then 1 else 0)
      | SystemExit, [VInt n] =>
          if bool_decide (0 ≤ n < 256) then Some n else None
      | SystemExit, _ => Some 1
      | KeyboardInterrupt, _ => None
      | _, _ => Some 1
      end
  end.

Section worker.
(** The registry of functions ([functions.py]): what a call returns or
    raises, and the session as the call leaves it, if it was given one
    and changed it.  [traceback.format_exc()] is the text for the
    exception being handled. *)
Context (functions : string → list pyobj → list (string * wvalue) →
                     outcome AccessHandle * option InferenceState).
Context (format_exc : exception AccessHandle → string).

(** [Listener._get_infer_state]. *)
Definition _get_infer_state (function : string) (infer_state_id : Z)
    (w : Worker) : addr * Worker :=
  match _infer_states (listener w) !! infer_state_id with
  | Some infer_state => (infer_state, w)
  | None =>
      let a := length (memory w) in
      (a, {| listener :=
               {| _infer_states := <[infer_state_id := a]> (_infer_states (listener w));
                  listener_pickle_protocol := listener_pickle_protocol (listener w) |};
             memory := memory w ++ [InferenceState__init__ a];
             calls := calls w |})
  end.

(** One step of "exchange all handles": a handle becomes the one the
    session's registry has for its id, or [KeyError]. *)
Definition exchange (reg : _InferenceStateProcess AccessHandle) (arg : wvalue)
    : exception AccessHandle + wvalue :=
  match arg with
  | VAccessHandle h =>
      match get_access_handle reg (id h) with
      | Some live => inr (VAccessHandle live)
      | None => inl (Exc KeyError [VInt (id h)])
      end
  | _ => inr arg
  end.

Fixpoint exchange_args (reg : _InferenceStateProcess AccessHandle)
    (args : list wvalue) : exception AccessHandle + list wvalue :=
  match args with
  | [] => inr []
  | arg :: rest =>
      match exchange reg arg with
      | inl e => inl e
      | inr arg' =>
          match exchange_args reg rest with
          | inl e => inl e
          | inr rest' => inr (arg' :: rest')
          end
      end
  end.

Fixpoint exchange_kwargs (reg : _InferenceStateProcess AccessHandle)
    (kwargs : list (string * wvalue))
    : exception AccessHandle + list (string * wvalue) :=
  match kwargs with
  | [] => inr []
  | (key, v) :: rest =>
      match exchange reg v with
      | inl e => inl e
      | inr v' =>
          match exchange_kwargs reg rest with
          | inl e => inl e
          | inr rest' => inr ((key, v') :: rest')
          end
      end
  end.

Definition record_call (c : call) (w : Worker) : Worker :=
  {| listener := listener w; memory := memory w; calls := calls w ++ [c] |}.

(** [Listener._run]. *)
Definition _run (infer_state_id : option Z) (function : option string)
    (args : list wvalue) (kwargs : list (string * wvalue)) (w : Worker)
    : outcome AccessHandle * Worker :=
  match infer_state_id, function with
  | None, Some f =>
      ((functions f (map ArgValue args) kwargs).1,
       record_call (Call f None args kwargs) w)
  | None, None =>
      (Raise (Exc TypeError [VStr "'NoneType' object is not callable"]), w)
  | Some i, None =>
      match _infer_states (listener w) !! i with
      | Some _ =>
          (Return VNone,
           {| listener :=
                {| _infer_states := delete i (_infer_states (listener w));
                   listener_pickle_protocol := listener_pickle_protocol (listener w) |};
              memory := memory w;
              calls := calls w |})
      | None => (Raise (Exc KeyError [VInt i]), w)
      end
  | Some i, Some f =>
      let '(a, w1) := _get_infer_state f i w in
      match memory w1 !! a with
      | None => (Raise (Exc KeyError [VInt i]), w1) (* the map holds live sessions *)
      | Some infer_state =>
          match exchange_args (compiled_subprocess infer_state) args with
          | inl e => (Raise e, w1)
          | inr args' =>
              match exchange_kwargs (compiled_subprocess infer_state) kwargs with
              | inl e => (Raise e, w1)
              | inr kwargs' =>
                  let r := functions f
                             (ArgInferenceState infer_state :: map ArgValue args')
                             kwargs' in
                  (r.1,
                   record_call (Call f (Some a) args' kwargs')
                     {| listener := listener w1;
                        memory := <[a := default infer_state r.2]> (memory w1);
                        calls := calls w1 |})
              end
          end
      end
  end.

(** The body of the loop of [Listener.listen] once a payload is read:
    the response to write, or the exception that [except Exception] lets
    through.  The objects are those that pickle dumps and rebuilds, so
    the response is written; [listen_step_pickling] below is the body
    with a pickle that raises. *)
Definition listen_step (payload : request Z) (w : Worker)
    : (response Z + exception AccessHandle) * Worker :=
  let p := reqmap __setstate__ payload in
  let '(res, w') := _run (req_infer_state_id p) (req_function p)
                      (req_args p) (req_kwargs p) w in
  match res with
  | Return v => (inl (respmap __getstate__ (Response false None v)), w')
  | Raise e =>
      if is_Exception (exc_type e)
      then (inl (respmap __getstate__
                   (Response true (Some (format_exc e))
                      (VException (exc_type e) (exc_args e)))), w')
      else (inr e, w')
  end.

(** [Listener.listen], [stdin] being the requests to come before the
    end of the stream: what is written to stdout, how the loop ends, and
    the worker then. *)
Fixpoint listen (stdin : list (request Z)) (w : Worker)
    : list (response Z) * exit_status * Worker :=
  match stdin with
  | [] => ([], Exited 0, w)
  | payload :: rest =>
      match listen_step payload w with
      | (inl resp, w') =>
          let '(out, status, w'') := listen rest w' in
          (resp :: out, status, w'')
      | (inr e, w') => ([], Uncaught e, w')
      end
  end.
End worker.

(** ** The host: pickling with object references *)

(** An [option] through a list, left to right. *)
Definition mapO {A B : Type} (f : A → option B) : list A → option (list B) :=
  fix go l :=
    match l with
    | [] => Some []
    | x :: r =>
        match f x with
        | Some y =>
            match go r with
            | Some r' => Some (y :: r')
            | None => None
            end
        | None => None
        end
    end.

(** Pickling on the host: each handle gives its state.  [None] when a
    reference has no object, which a Python reference never is. *)
Fixpoint pickle (hp : heap) (v : value addr) : option (value Z) :=
  match v with
  | VNone => Some VNone
  | VBool b => Some (VBool b)
  | VInt z => Some (VInt z)
  | VStr s => Some (VStr s)
  | VSlice a b c => Some (VSlice a b c)
  | VTuple l => VTuple <$> mapO (pickle hp) l
  | VList l => VList <$> mapO (pickle hp) l
  | VDict l =>
      VDict <$> mapO (λ kv, match pickle hp kv.2 with
                            | Some w => Some (kv.1, w)
                            | None => None
                            end) l
  | VSignatureParam l => VSignatureParam <$> mapO (pickle hp) l
  | VAccessHandle a => (λ h, VAccessHandle (__getstate__ h)) <$> hp !! a
  | VAccessPath v => VAccessPath <$> pickle hp v
  | VException c l => VException c <$> mapO (pickle hp) l
  end.

Definition pickle_kwargs (hp : heap) (kw : list (string * value addr))
    : option (list (string * value Z)) :=
  mapO (λ kv, match pickle hp kv.2 with
              | Some w => Some (kv.1, w)
              | None => None
              end) kw.

Definition pickle_request (hp : heap) (r : request addr) : option (request Z) :=
  match mapO (pickle hp) (req_args r), pickle_kwargs hp (req_kwargs r) with
  | Some args, Some kwargs =>
      Some (Request (req_infer_state_id r) (req_function r) args kwargs)
  | _, _ => None
  end.

(** Unpickling on the host: each handle is a new object, made from its
    state.  (Of an object that occurs more than once in a message pickle
    makes one object; a handle of the worker is kept here by its state,
    so every occurrence is rebuilt, and it is [_convert_access_handles]
    that leaves one instance for an id.) *)
Fixpoint unpickle (v : value Z) (hp : heap) : value addr * heap :=
  match v with
  | VNone => (VNone, hp)
  | VBool b => (VBool b, hp)
  | VInt z => (VInt z, hp)
  | VStr s => (VStr s, hp)
  | VSlice a b c => (VSlice a b c, hp)
  | VTuple l => let '(l', hp') := mapS unpickle l hp in (VTuple l', hp')
  | VList l => let '(l', hp') := mapS unpickle l hp in (VList l', hp')
  | VDict l =>
      let '(l', hp') :=
        mapS (λ kv hp, let '(w, hp') := unpickle kv.2 hp in ((kv.1, w), hp'))
          l hp in
      (VDict l', hp')
  | VSignatureParam l =>
      let '(l', hp') := mapS unpickle l hp in (VSignatureParam l', hp')
  | VAccessHandle state =>
      let a := fresh (dom hp) in
      (VAccessHandle a, <[a := __setstate__ state]> hp)
  | VAccessPath v => let '(v', hp') := unpickle v hp in (VAccessPath v', hp')
  | VException c l =>
      let '(l', hp') := mapS unpickle l hp in (VException c l', hp')
  end.

(** ** The host: [class CompiledSubprocess] *)

Definition pid := nat.

(** [errno.EPIPE] and [errno.EINVAL]. *)
Definition EPIPE : Z := 32.
Definition EINVAL : Z := 22.

(** What the manager needs of the operating system and of the Python
    runtime: starting the worker, the three streams of a process, its
    clean-up, and [repr].  [pickle_dump] writes a pickled request to the
    stdin of the process ([None]: written); [pickle_load] reads a response
    from its stdout. *)
Class OS (W : Type) := {
  GeneralizedPopen : string → W → pid * W;
  pickle_dump : pid → request Z → W → option (exception addr) * W;
  pickle_load : pid → W → (response Z + exception addr) * W;
  stderr_read : pid → W → (string + exception addr) * W;
  _add_stderr_to_debug : pid → W → W;
  _cleanup_process : pid → W → W;
  repr : exception addr → string
}.

(** [self._cleanup_callable]: [lambda: None] at first, then the
    [weakref.finalize] of the process, which runs once. *)
Inductive cleanup_callable :=
| no_cleanup
| finalize (process : pid)
| finalized.

(** [class CompiledSubprocess].  [_get_process_memo] is what
    [memoize_method] keeps for [_get_process]. *)
Record CompiledSubprocess := {
  is_crashed : bool;
  _pickle_protocol : Z;
  _executable : string;
  _infer_state_deletion_queue : list Z;
  _get_process_memo : option pid;
  _cleanup_callable : cleanup_callable
}.

(** [CompiledSubprocess(executable)]. *)
Definition CompiledSubprocess__init__ (executable : string) : CompiledSubprocess :=
  {| is_crashed := false;
     _pickle_protocol := 2;
     _executable := executable;
     _infer_state_deletion_queue := [];
     _get_process_memo := None;
     _cleanup_callable := no_cleanup |}.

(** The host: the manager, the handles of the host, and the world. *)
Record Host (W : Type) := {
  self : CompiledSubprocess;
  objects : heap;
  os : W
}.
Arguments self {W} _.
Arguments objects {W} _.
Arguments os {W} _.
Arguments Build_Host {W} _ _ _.

(** [e.errno], set when an [OSError] is made from two arguments or more. *)
Definition errno {H} (e : exception H) : option Z :=
  match exc_type e, exc_args e with
  | OSError, VInt n :: _ :: _ => Some n
  | _, _ => None
  end.

(** [traceback] as the argument it becomes. *)
Definition traceback_value {H} (t : option string) : value H :=
  match t with
  | Some s => VStr s
  | None => VNone
  end.

Definition InternalError_ {H} (msg : string) : exception H :=
  Exc InternalError [VStr msg].

Section host.
Context {W : Type} `{OS W}.

Definition set_self (c : CompiledSubprocess) (st : Host W) : Host W :=
  Build_Host c (objects st) (os st).
Definition set_os (w : W) (st : Host W) : Host W :=
  Build_Host (self st) (objects st) w.
Definition set_objects (hp : heap) (st : Host W) : Host W :=
  Build_Host (self st) hp (os st).

(** [CompiledSubprocess._get_process], with its [memoize_method]. *)
Definition _get_process (st : Host W) : pid * Host W :=
  match _get_process_memo (self st) with
  | Some process => (process, st)
  | None =>
      let '(process, w) := GeneralizedPopen (_executable (self st)) (os st) in
      (process,
       Build_Host
         {| is_crashed := is_crashed (self st);
            _pickle_protocol := _pickle_protocol (self st);
            _executable := _executable (self st);
            _infer_state_deletion_queue := _infer_state_deletion_queue (self st);
            _get_process_memo := Some process;
            _cleanup_callable := finalize process |}
         (objects st) w)
  end.

(** [CompiledSubprocess._kill]. *)
Definition _kill (st : Host W) : Host W :=
  let crashed c :=
    {| is_crashed := true;
       _pickle_protocol := _pickle_protocol (self st);
       _executable := _executable (self st);
       _infer_state_deletion_queue := _infer_state_deletion_queue (self st);
       _get_process_memo := _get_process_memo (self st);
       _cleanup_callable := c |} in
  match _cleanup_callable (self st) with
  | finalize process =>
      Build_Host (crashed finalized) (objects st) (_cleanup_process process (os st))
  | c => Build_Host (crashed c) (objects st) (os st)
  end.

(** The end of [_send]: [result.args = (traceback,); raise result], or
    [return result]. *)
Definition deliver (is_exc : bool) (tb : option string) (res : value addr)
    : outcome addr :=
  if is_exc then
    match res with
    | VException c _ => Raise (Exc c [traceback_value tb])
    | VAccessHandle _ | VAccessPath _ =>
        Raise (Exc TypeError [VStr "exceptions must derive from BaseException"])
    | _ => Raise (Exc AttributeError [VStr "args"])
    end
  else Return res.

(** [CompiledSubprocess._send]. *)
Definition _send (infer_state_id : option Z) (function : option string)
    (args : list (value addr)) (kwargs : list (string * value addr))
    (st : Host W) : outcome addr * Host W :=
  if is_crashed (self st) then
    (Raise (InternalError_
              ("The subprocess " +:+ _executable (self st) +:+ " has crashed.")),
     st)
  else
    let data := Request infer_state_id function args kwargs in
    let '(process, st1) := _get_process st in
    match pickle_request (objects st1) data with
    | None => (Raise (Exc TypeError [VStr "cannot pickle"]), st1)
    | Some wire =>
        let '(err, w2) := pickle_dump process wire (os st1) in
        let st2 := set_os w2 st1 in
        match err with
        | Some e =>
            match exc_type e with
            | OSError =>
                if bool_decide (errno e = Some EPIPE ∨ errno e = Some EINVAL)
                then
                  (Raise (InternalError_
                            ("The subprocess " +:+ _executable (self st)
                             +:+ " was killed. Maybe out of memory?")),
                   _kill st2)
                else (Raise e, st2)
            | _ => (Raise e, st2)
            end
        | None =>
            let '(process, st3) := _get_process st2 in
            let '(loaded, w4) := pickle_load process (os st3) in
            let st4 := set_os w4 st3 in
            match loaded with
            | inr e =>
                match exc_type e with
                | EOFError =>
                    let '(process, st5) := _get_process st4 in
                    let '(read, w6) := stderr_read process (os st5) in
                    let st6 := set_os w6 st5 in
                    match read with
                    | inr exc =>
                        if is_Exception (exc_type exc) then
                          let stderr :=
                            "<empty/not available (" +:+ repr exc +:+ ")>" in
                          let st7 := _kill st6 in
                          (Raise (InternalError_
                                    ("The subprocess " +:+ _executable (self st)
                                     +:+ " has crashed (" +:+ repr e
                                     +:+ ", stderr=" +:+ stderr +:+ ").")),
                           set_os (_add_stderr_to_debug process (os st7)) st7)
                        else (Raise exc, st6)
                    | inl stderr =>
                        let st7 := _kill st6 in
                        (Raise (InternalError_
                                  ("The subprocess " +:+ _executable (self st)
                                   +:+ " has crashed (" +:+ repr e
                                   +:+ ", stderr=" +:+ stderr +:+ ").")),
                         set_os (_add_stderr_to_debug process (os st7)) st7)
                    end
                | _ => (Raise e, st4)
                end
            | inl resp =>
                let '(res, hp) := unpickle (result resp) (objects st4) in
                let st5 := set_objects hp st4 in
                let st6 := set_os (_add_stderr_to_debug process (os st5)) st5 in
                (deliver (is_exception resp) (traceback resp) res, st6)
            end
        end
    end.

(** [deque.pop()]: the right end, or [None] for [IndexError]. *)
Definition deque_pop (q : list Z) : option (Z * list Z) :=
  match reverse q with
  | [] => None
  | x :: r => Some (x, reverse r)
  end.

Definition set_queue (q : list Z) (st : Host W) : Host W :=
  set_self
    {| is_crashed := is_crashed (self st);
       _pickle_protocol := _pickle_protocol (self st);
       _executable := _executable (self st);
       _infer_state_deletion_queue := q;
       _get_process_memo := _get_process_memo (self st);
       _cleanup_callable := _cleanup_callable (self st) |} st.

(** The loop of [run] that deletes the old infer_states, for at most
    [n] rounds: the exception that ended it, if one did. *)
Fixpoint delete_old (n : nat) (st : Host W) : option (exception addr) * Host W :=
  match n with
  | O => (None, st)
  | S n' =>
      match deque_pop (_infer_state_deletion_queue (self st)) with
      | None => (None, st)
      | Some (infer_state_id, q) =>
          match _send (Some infer_state_id) None [] [] (set_queue q st) with
          | (Raise e, st') => (Some e, st')
          | (Return _, st') => delete_old n' st'
          end
      end
  end.

(** [CompiledSubprocess.run], [infer_state_id] being [id(infer_state)].
    The queue is not longer than its length, so the loop has the rounds
    it needs. *)
Definition run (infer_state_id : Z) (function : string)
    (args : list (value addr)) (kwargs : list (string * value addr))
    (st : Host W) : outcome addr * Host W :=
  match delete_old (length (_infer_state_deletion_queue (self st))) st with
  | (Some e, st') => (Raise e, st')
  | (None, st') => _send (Some infer_state_id) (Some function) args kwargs st'
  end.

(** [CompiledSubprocess.get_sys_path]. *)
Definition get_sys_path (st : Host W) : outcome addr * Host W :=
  _send None (Some "get_sys_path") [] [] st.

(** [CompiledSubprocess.delete_infer_state]. *)
Definition delete_infer_state (infer_state_id : Z) (st : Host W) : Host W :=
  set_queue (_infer_state_deletion_queue (self st) ++ [infer_state_id]) st.
End host.

(** ** The world with a worker in it *)

(** A worker process as the host has it: the listener while it runs
    ([None] once the process is gone), what was written to its stdin, and
    what it wrote to stdout and stderr that nobody has read yet. *)
Record Process := {
  running : option Worker;
  stdin_written : list (request Z);
  stdout_unread : list (response Z);
  stderr_unread : string
}.

(** The processes started so far; a process is referred to by its place. *)
Abbreviation World := (list Process).

Definition exc_class_name (c : exc_class) : string :=
  match c with
  | KeyError => "KeyError" | ValueError => "ValueError"
  | TypeError => "TypeError" | AttributeError => "AttributeError"
  | IndexError => "IndexError" | EOFError => "EOFError"
  | OSError => "OSError" | InternalError => "InternalError"
  | SystemExit => "SystemExit" | KeyboardInterrupt => "KeyboardInterrupt"
  | GeneratorExit => "GeneratorExit" | UserError name => name
  end.

(** The process ends from outside (it is killed, it runs out of memory). *)
Definition kill_process (process : pid) (w : World) : World :=
  match w !! process with
  | Some p =>
      <[process := {| running := None; stdin_written := stdin_written p;
                      stdout_unread := stdout_unread p;
                      stderr_unread := stderr_unread p |}]> w
  | None => w
  end.

Section world.
Context (functions : string → list pyobj → list (string * wvalue) →
                     outcome AccessHandle * option InferenceState).
Context (format_exc : exception AccessHandle → string).

(** A write reaches a running listener at once, and the listener answers
    or ends; a write to a process that is gone is a broken pipe.  A read
    takes the next response, and finds the end of the stream when there
    is none.  Every response is one that pickle dumps and rebuilds;
    [pickling_os] below is this world with a pickle that raises. *)
Definition world_os : OS World := {|
  GeneralizedPopen _ w :=
    (length w,
     w ++ [{| running := Some (Listener__init__ 2); stdin_written := [];
              stdout_unread := []; stderr_unread := "" |}]);
  pickle_dump process data w :=
    match w !! process with
    | Some p =>
        match running p with
        | Some wk =>
            match listen_step functions format_exc data wk with
            | (inl resp, wk') =>
                (None,
                 <[process := {| running := Some wk';
                                 stdin_written := stdin_written p ++ [data];
                                 stdout_unread := stdout_unread p ++ [resp];
                                 stderr_unread := stderr_unread p |}]> w)
            | (inr _, _) =>
                (None,
                 <[process := {| running := None;
                                 stdin_written := stdin_written p ++ [data];
                                 stdout_unread := stdout_unread p;
                                 stderr_unread := stderr_unread p |}]> w)
            end
        | None => (Some (Exc OSError [VInt EPIPE; VStr "Broken pipe"]), w)
        end
    | None => (Some (Exc OSError [VInt EPIPE; VStr "Broken pipe"]), w)
    end;
  pickle_load process w :=
    match w !! process with
    | Some p =>
        match stdout_unread p with
        | resp :: rest =>
            (inl resp,
             <[process := {| running := running p;
                             stdin_written := stdin_written p;
                             stdout_unread := rest;
                             stderr_unread := stderr_unread p |}]> w)
        | [] => (inr (Exc EOFError []), w)
        end
    | None => (inr (Exc EOFError []), w)
    end;
  stderr_read process w :=
    match w !! process with
    | Some p =>
        (inl (stderr_unread p),
         <[process := {| running := running p;
                         stdin_written := stdin_written p;
                         stdout_unread := stdout_unread p;
                         stderr_unread := "" |}]> w)
    | None => (inl "", w)
    end;
  _add_stderr_to_debug _ w := w;
  _cleanup_process process w :=
    match w !! process with
    | Some p =>
        <[process := {| running := None; stdin_written := stdin_written p;
                        stdout_unread := []; stderr_unread := "" |}]> w
    | None => w
    end;
  repr e := exc_class_name (exc_type e) +:+ "()"
|}.
End world.

(** ** What the claims speak of *)

(** A session in the listener's map is in the worker's memory. *)
Definition worker_wf (w : Worker) : Prop :=
  ∀ i a, _infer_states (listener w) !! i = Some a → is_Some (memory w !! a).

(** [v'] is [v] after the exchange of handles against [reg]: a handle
    has become the live handle the registry has for its id, anything else
    is as it was. *)
Definition exchanged (reg : _InferenceStateProcess AccessHandle)
    (v v' : wvalue) : Prop :=
  match v with
  | VAccessHandle h =>
      ∃ live, _handles reg !! id h = Some live ∧ v' = VAccessHandle live
  | _ => v' = v
  end.

(** Every handle among the arguments is in the registry. *)
Definition resolvable (reg : _InferenceStateProcess AccessHandle)
    (args : list wvalue) : Prop :=
  Forall (λ v, match v with
               | VAccessHandle h => is_Some (_handles reg !! id h)
               | _ => True
               end) args.

(** The request that deletes a context. *)
Definition deletion_request {H} (infer_state_id : Z) : request H :=
  Request (Some infer_state_id) None [] [].

(** A registry of functions to try things on: [boom] raises a
    [ValueError], [quit] leaves the interpreter, [count] counts its calls
    in the session it is given, and any other name returns [None]. *)
Definition test_functions (name : string) (args : list pyobj)
    (kwargs : list (string * wvalue))
    : outcome AccessHandle * option InferenceState :=
  if String.eqb name "boom" then (Raise (Exc ValueError [VStr "boom"]), None)
  else if String.eqb name "quit" then (Raise (Exc SystemExit []), None)
  else if String.eqb name "count" then
    match args with
    | ArgInferenceState s :: _ =>
        let n := match attributes s !! "n" with
                 | Some (VInt k) => k + 1
                 | _ => 1
                 end in
        (Return (VInt n),
         Some {| compiled_subprocess := compiled_subprocess s;
                 attributes := <["n" := VInt n]> (attributes s) |})
    | _ => (Raise (Exc TypeError [VStr "count() needs an infer_state"]), None)
    end
  else (Return VNone, None).

Definition test_format_exc (e : exception AccessHandle) : string :=
  "Traceback (most recent call last): " +:+ exc_class_name (exc_type e).

(** The one session of context [i] is the first object of the worker, and
    every call that was given a session was given this one. *)
Definition one_session (i : Z) (w : Worker) : Prop :=
  length (memory w) = 1%nat
  ∧ _infer_states (listener w) = {[ i := 0%nat ]}
  ∧ Forall (λ c, call_session c = Some 0%nat) (calls w).

(** No session yet, and no call. *)
Definition no_session (w : Worker) : Prop :=
  memory w = [] ∧ _infer_states (listener w) = ∅ ∧ calls w = [].

(** What the claim says of the loop: it ends by [exit(0)] at the end of
    the stream, with a response written for every request. *)
Definition ends_only_at_eof
    (functions : string → list pyobj → list (string * wvalue) →
                 outcome AccessHandle * option InferenceState)
    (format_exc : exception AccessHandle → string)
    (stdin : list (request Z)) (w : Worker) : Prop :=
  let r := listen functions format_exc stdin w in
  r.1.2 = Exited 0 ∧ length r.1.1 = length stdin.

(** The manager is not crashed and has started process [p], in which the
    listener runs in state [wk]; [log] was written to its stdin, [err] is
    on its stderr, and every response was read. *)
Definition connected (st : Host World) (p : pid) (wk : Worker)
    (log : list (request Z)) (err : string) : Prop :=
  is_crashed (self st) = false
  ∧ _get_process_memo (self st) = Some p
  ∧ _cleanup_callable (self st) = finalize p
  ∧ os st !! p = Some {| running := Some wk; stdin_written := log;
                         stdout_unread := []; stderr_unread := err |}.

(** A call of the manager. *)
Inductive manager_call :=
| call_send (infer_state_id : option Z) (function : option string)
    (args : list (value addr)) (kwargs : list (string * value addr))
| call_run (infer_state_id : Z) (function : string)
    (args : list (value addr)) (kwargs : list (string * value addr))
| call_get_sys_path
| call_delete_infer_state (infer_state_id : Z).

Section manager_calls.
Context {W : Type} `{OS W}.

(** The host after a call, whatever the call returned or raised. *)
Definition perform (c : manager_call) (st : Host W) : Host W :=
  match c with
  | call_send i f args kwargs => (_send i f args kwargs st).2
  | call_run i f args kwargs => (run i f args kwargs st).2
  | call_get_sys_path => (get_sys_path st).2
  | call_delete_infer_state i => delete_infer_state i st
  end.

Definition perform_all (cs : list manager_call) (st : Host W) : Host W :=
  foldl (λ st c, perform c st) st cs.

(** The write of [wire] to the worker fails with a broken pipe. *)
Definition write_breaks (wire : request Z) (st : Host W) : Prop :=
  let r := _get_process st in
  ∃ e, (pickle_dump r.1 wire (os r.2)).1 = Some e
       ∧ exc_type e = OSError
       ∧ (errno e = Some EPIPE ∨ errno e = Some EINVAL).

(** [wire] is written, and the read of the response finds the end of the
    stream (and reading stderr then raises, if it does, an
    [Exception]). *)
Definition read_ends (wire : request Z) (st : Host W) : Prop :=
  let r := _get_process st in
  let d := pickle_dump r.1 wire (os r.2) in
  let l := pickle_load r.1 d.2 in
  d.1 = None
  ∧ (∃ e, l.1 = inr e ∧ exc_type e = EOFError)
  ∧ match (stderr_read r.1 l.2).1 with
    | inr exc => is_Exception (exc_type exc) = true
    | inl _ => True
    end.
End manager_calls.

(** What the claim says of a call whose handler raised [e]: [_send]
    raises an exception of the class of [e] whose only argument is the
    trace text, and the manager is not crashed. *)
Definition reraised
    (functions : string → list pyobj → list (string * wvalue) →
                 outcome AccessHandle * option InferenceState)
    (format_exc : exception AccessHandle → string)
    (st : Host World) (i : option Z) (f : option string)
    (args : list (value addr)) (kwargs : list (string * value addr))
    (e : exception AccessHandle) : Prop :=
  let r := @_send World (world_os functions format_exc) i f args kwargs st in
  r.1 = Raise (Exc (exc_type e) [VStr (format_exc e)])
  ∧ is_crashed (self r.2) = false.

(** A host whose manager was just made, in a world without processes,
    and the same host once the worker is started. *)
Definition new_host : Host World :=
  Build_Host (CompiledSubprocess__init__ "python") ∅ [].

Definition started_host : Host World :=
  (@_get_process World (world_os test_functions test_format_exc) new_host).2.

(** ** [AccessHandle._workaround] and its cache *)

#[global] Instance exc_class_eq_dec : EqDecision exc_class.
Proof. solve_decision. Defined.

(** [hash(v)] does not raise: slices, lists and dicts are unhashable, a
    tuple is hashable when its items are, an object is hashable by its
    identity. *)
Fixpoint hashable {H} (v : value H) : bool :=
  match v with
  | VSlice _ _ _ | VList _ | VDict _ => false
  | VTuple l | VSignatureParam l => forallb hashable l
  | _ => true
  end.

(** Equality of values, handles being compared with [eqH]. *)
Fixpoint value_eqb {H} (eqH : H → H → bool) (v w : value H) : bool :=
  let list_eqb :=
    fix go (l k : list (value H)) : bool :=
      match l, k with
      | [], [] => true
      | x :: l', y :: k' => value_eqb eqH x y && go l' k'
      | _, _ => false
      end in
  match v, w with
  | VNone, VNone => true
  | VBool a, VBool b => Bool.eqb a b
  | VInt a, VInt b => Z.eqb a b
  | VStr a, VStr b => String.eqb a b
  | VSlice a b c, VSlice a' b' c' => bool_decide (a = a' ∧ b = b' ∧ c = c')
  | VTuple l, VTuple k => list_eqb l k
  | VList l, VList k => list_eqb l k
  | VDict l, VDict k =>
      (fix go (l k : list (string * value H)) : bool :=
         match l, k with
         | [], [] => true
         | x :: l', y :: k' =>
             String.eqb x.1 y.1 && value_eqb eqH x.2 y.2 && go l' k'
         | _, _ => false
         end) l k
  | VSignatureParam l, VSignatureParam k => list_eqb l k
  | VAccessHandle a, VAccessHandle b => eqH a b
  | VAccessPath a, VAccessPath b => value_eqb eqH a b
  | VException c l, VException d k => bool_decide (c = d) && list_eqb l k
  | _, _ => false
  end.

Fixpoint args_eqb (l k : list (value addr)) : bool :=
  match l, k with
  | [], [] => true
  | x :: l', y :: k' => value_eqb Nat.eqb x y && args_eqb l' k'
  | _, _ => false
  end.

Fixpoint kwargs_eqb (l k : list (string * value addr)) : bool :=
  match l, k with
  | [], [] => true
  | x :: l', y :: k' =>
      String.eqb x.1 y.1 && value_eqb Nat.eqb x.2 y.2 && kwargs_eqb l' k'
  | _, _ => false
  end.

Definition key_eqb (k1 k2 : memo_key) : bool :=
  args_eqb k1.1 k2.1 && kwargs_eqb k1.2 k2.2.

Definition key_hashable (key : memo_key) : bool :=
  forallb hashable key.1 && forallb (λ kv, hashable kv.2) key.2.

Fixpoint memo_lookup (dct : list (memo_key * value addr)) (key : memo_key)
    : option (value addr) :=
  match dct with
  | [] => None
  | (k, r) :: rest => if key_eqb k key then Some r else memo_lookup rest key
  end.

Definition set_memo (dct : list (memo_key * value addr)) (self : AccessHandle)
    : AccessHandle :=
  {| access := access self; _subprocess := _subprocess self; id := id self;
     _memoize_method_dct := dct |}.

Definition is_slice {H} (v : value H) : bool :=
  match v with
  | VSlice _ _ _ => true
  | _ => false
  end.

Section workaround.
(** [self._subprocess.get_compiled_method_return(self.id, name, *args,
    **kwargs)], a call through the dispatcher: [S] is all it can change,
    and the first argument is the subprocess of the handle. *)
Context {S : Type}.
Context (get_compiled_method_return :
           Z → Z → string → list (value addr) → list (string * value addr) →
           S → outcome addr * S).

(** Modelled from the spec: [memoize_method] of [jedi.cache], which is
    not among the sources.  The spec has it as "a memoized call keyed by
    (operation name, args, kwargs) so repeated identical queries against
    the same remote object are served from cache without a round trip",
    and has slices as "not hashable" so that they "cannot be memoized":
    a key that cannot be hashed raises [TypeError]; a key in the cache
    of the object gives the cached result; otherwise the method runs and
    what it returns is cached under the key. *)
Definition memoize_method
    (method : AccessHandle → list (value addr) → list (string * value addr) →
              S → outcome addr * AccessHandle * S)
    (self : AccessHandle) (args : list (value addr))
    (kwargs : list (string * value addr)) (s : S)
    : outcome addr * AccessHandle * S :=
  let key := (args, kwargs) in
  if key_hashable key then
    match memo_lookup (_memoize_method_dct self) key with
    | Some r => (Return r, self, s)
    | None =>
        match method self args kwargs s with
        | (Return r, self', s') =>
            (Return r, set_memo ((key, r) :: _memoize_method_dct self') self', s')
        | (Raise e, self', s') => (Raise e, self', s')
        end
    end
  else (Raise (Exc TypeError [VStr "unhashable type"]), self, s).

(** The call both paths end in.  A handle that was unpickled and never
    converted has no [_subprocess]: [__getattr__] raises. *)
Definition subprocess_method (self : AccessHandle) (name : string)
    (args : list (value addr)) (kwargs : list (string * value addr)) (s : S)
    : outcome addr * AccessHandle * S :=
  match _subprocess self with
  | Some subprocess =>
      let '(r, s') :=
        get_compiled_method_return subprocess (id self) name args kwargs s in
      (r, self, s')
  | None =>
      (Raise (Exc AttributeError [VStr "Something went wrong with unpickling"]),
       self, s)
  end.

(** [AccessHandle._cached_results], under [@memoize_method]: its
    positional arguments are [name] and [args]. *)
Definition _cached_results (self : AccessHandle) (name : string)
    (args : list (value addr)) (kwargs : list (string * value addr)) (s : S)
    : outcome addr * AccessHandle * S :=
  memoize_method
    (λ self args' kwargs s,
       match args' with
       | VStr name :: args => subprocess_method self name args kwargs s
       | _ => (Raise (Exc TypeError [VStr "_cached_results() needs a name"]),
               self, s)
       end)
    self (VStr name :: args) kwargs s.

(** [AccessHandle._workaround]. *)
Definition _workaround (self : AccessHandle) (name : string)
    (args : list (value addr)) (kwargs : list (string * value addr)) (s : S)
    : outcome addr * AccessHandle * S :=
  match args with
  | VSlice _ _ _ :: _ => subprocess_method self name args kwargs s
  | _ => _cached_results self name args kwargs s
  end.

(** What the claim says of the routing: with a slice among the
    arguments, the call is the uncached one. *)
Definition slices_go_uncached (self : AccessHandle) (name : string)
    (args : list (value addr)) (kwargs : list (string * value addr)) (s : S)
    : Prop :=
  existsb is_slice args || existsb (λ kv, is_slice kv.2) kwargs = true →
  _workaround self name args kwargs s = subprocess_method self name args kwargs s.
End workaround.

(** A dispatcher to try things on: it returns [1] and counts its calls. *)
Definition counting_dispatcher (subprocess id_ : Z) (name : string)
    (args : list (value addr)) (kwargs : list (string * value addr)) (n : nat)
    : outcome addr * nat :=
  (Return (VInt 1), S n).

(** A handle of the host, converted: it has its subprocess. *)
Definition converted_handle : AccessHandle :=
  add_subprocess 42 (__setstate__ 7).

(** ** Concrete states *)

(** The started host after its worker was killed from outside. *)
Definition killed_host : Host World :=
  Build_Host (self started_host) (objects started_host)
    (kill_process 0%nat (os started_host)).

(** A worker with the sessions of contexts 7 and 9, and a connected host
    that has both contexts queued for deletion. *)
Definition two_sessions : Worker :=
  {| listener := {| _infer_states := {[ 7 := 0%nat; 9 := 1%nat ]};
                    listener_pickle_protocol := 2 |};
     memory := [InferenceState__init__ 0%nat; InferenceState__init__ 1%nat];
     calls := [] |}.

Definition flushing_host : Host World :=
  Build_Host
    {| is_crashed := false; _pickle_protocol := 2; _executable := "python";
       _infer_state_deletion_queue := [7; 9];
       _get_process_memo := Some 0%nat;
       _cleanup_callable := finalize 0%nat |}
    ∅
    [{| running := Some two_sessions; stdin_written := [];
        stdout_unread := []; stderr_unread := "" |}].

(** A worker whose session of context 7 has a live handle for id 5. *)
Definition live_handle : AccessHandle :=
  AccessHandle__init__ 0 {| _obj := 5 |} 5.

Definition one_handle : Worker :=
  {| listener := {| _infer_states := {[ 7 := 0%nat ]};
                    listener_pickle_protocol := 2 |};
     memory := [{| compiled_subprocess :=
                     {| _infer_state_id := 0; _handles := {[ 5 := live_handle ]} |};
                   attributes := ∅ |}];
     calls := [] |}.

(** Three unpickled handles on the host, two of them for one id. *)
Definition three_handles : _InferenceStateProcess addr * heap :=
  ({| _infer_state_id := 42; _handles := ∅ |},
   {[ 0%nat := __setstate__ 7; 1%nat := __setstate__ 7; 2%nat := __setstate__ 9 ]}).

(** ** Further properties: what they speak of *)

(** Every handle on the walk of [v] is the instance the registry holds
    for its id. *)
Definition canonical_value (σ : _InferenceStateProcess addr * heap)
    (v : value addr) : Prop :=
  ∀ a, a ∈ walked v → ∃ i, id_at σ.2 a = Some i ∧ _handles σ.1 !! i = Some a.

(** A registry of the worker maps an id only to a handle with this id. *)
Definition handles_keyed_by_id (reg : _InferenceStateProcess AccessHandle) : Prop :=
  ∀ i h, _handles reg !! i = Some h → id h = i.

(** Two contexts never share a session. *)
Definition sessions_distinct (w : Worker) : Prop :=
  ∀ i j a, _infer_states (listener w) !! i = Some a →
           _infer_states (listener w) !! j = Some a → i = j.

(** The sessions of a worker are sound: each is in memory, and is the
    session of one context. *)
Definition worker_ok (w : Worker) : Prop :=
  worker_wf w ∧ sessions_distinct w.

(** A world in which every write fails because the disk is full
    ([errno.ENOSPC]), and every read finds a broken stream. *)
Definition ENOSPC : Z := 28.

Definition disk_full_os : OS unit := {|
  GeneralizedPopen _ w := (0%nat, w);
  pickle_dump _ _ w := (Some (Exc OSError [VInt ENOSPC; VStr "No space left"]), w);
  pickle_load _ w := (inr (Exc ValueError [VStr "unpickling stack underflow"]), w);
  stderr_read _ w := (inl "", w);
  _add_stderr_to_debug _ w := w;
  _cleanup_process _ w := w;
  repr e := exc_class_name (exc_type e)
|}.

(** Between two calls a manager in the world with a worker is crashed, or
    has not started its worker, or is connected: the worker runs and every
    response it wrote was read. *)
Definition settled (st : Host World) : Prop :=
  is_crashed (self st) = true
  ∨ (is_crashed (self st) = false ∧ _get_process_memo (self st) = None)
  ∨ ∃ p wk log err, connected st p wk log err.

(** The manager is crashed and has cleaned up: the finalizer of its
    process has run, the process is gone and its streams are closed. *)
Definition cleaned (st : Host World) : Prop :=
  is_crashed (self st) = true
  ∧ _cleanup_callable (self st) = finalized
  ∧ ∃ p proc, _get_process_memo (self st) = Some p
      ∧ os st !! p = Some proc
      ∧ running proc = None ∧ stdout_unread proc = [] ∧ stderr_unread proc = "".

(** [settled], with a crashed manager that has cleaned up. *)
Definition tidy (st : Host World) : Prop :=
  cleaned st
  ∨ (is_crashed (self st) = false ∧ _get_process_memo (self st) = None)
  ∨ ∃ p wk log err, connected st p wk log err.

(** The manager has started no process and the world has [n] processes,
    or it has started process [n] and the world has [n + 1]. *)
Definition processes (n : nat) (st : Host World) : Prop :=
  match _get_process_memo (self st) with
  | None => length (os st) = n
  | Some p => p = n ∧ length (os st) = S n
  end.

(** ** The host: [class InferenceStateSubprocess] *)

(** [class InferenceStateSubprocess]: the fields of its base class
    [_InferenceStateProcess], and [_used]; its [_compiled_subprocess] is
    the manager of the host. *)
Record InferenceStateSubprocess := {
  base : _InferenceStateProcess addr;
  _used : bool
}.

(** [InferenceStateSubprocess(infer_state, compiled_subprocess)],
    [infer_state_id] being [id(infer_state)]. *)
Definition InferenceStateSubprocess__init__ (infer_state_id : Z)
    : InferenceStateSubprocess :=
  {| base := {| _infer_state_id := infer_state_id; _handles := ∅ |};
     _used := false |}.

Section subprocess.
Context {W : Type} `{OS W}.

(** The [wrapper] that [InferenceStateSubprocess.__getattr__(name)]
    returns, [name] being a function of [functions]. *)
Definition wrapper (name : string) (args : list (value addr))
    (kwargs : list (string * value addr))
    (sub : InferenceStateSubprocess) (st : Host W)
    : outcome addr * (InferenceStateSubprocess * Host W) :=
  let '(result, st1) := run (_infer_state_id (base sub)) name args kwargs st in
  match result with
  | Raise e => (Raise e, ({| base := base sub; _used := true |}, st1))
  | Return v =>
      let '(v', (base', hp)) :=
        _convert_access_handles v (base sub, objects st1) in
      (Return v', ({| base := base'; _used := true |}, set_objects hp st1))
  end.

(** [InferenceStateSubprocess.__del__]. *)
Definition InferenceStateSubprocess__del__ (sub : InferenceStateSubprocess)
    (st : Host W) : Host W :=
  if _used sub && negb (is_crashed (self st))
  then delete_infer_state (_infer_state_id (base sub)) st
  else st.
End subprocess.

(** A registry whose [pair] returns the live handle for id 5 twice; any
    other name is looked up in [test_functions].  And a connected host
    with nothing queued, whose worker is [one_handle]. *)
Definition handle_functions (name : string) (args : list pyobj)
    (kwargs : list (string * wvalue))
    : outcome AccessHandle * option InferenceState :=
  if String.eqb name "pair"
  then (Return (VTuple [VAccessHandle live_handle; VAccessHandle live_handle]),
        None)
  else test_functions name args kwargs.

Definition serving_host : Host World :=
  Build_Host
    {| is_crashed := false; _pickle_protocol := 2; _executable := "python";
       _infer_state_deletion_queue := [];
       _get_process_memo := Some 0%nat;
       _cleanup_callable := finalize 0%nat |}
    ∅
    [{| running := Some one_handle; stdin_written := [];
        stdout_unread := []; stderr_unread := "" |}].

(** ** [test/base.py]: running a function at a path *)

(** What [cwd_at] sees of the file system: the working directory of the
    process, the directory each absolute path names (none when there is no
    such directory), and the absolute path [os.getcwd()] gives for a
    directory (none once the directory is removed). *)
Record FS := {
  fs_cwd : Z;
  fs_paths : gmap string Z;
  fs_names : gmap Z string
}.

Definition ENOENT : Z := 2.

(** [os.getcwd()]; [None] is its [OSError]. *)
Definition getcwd (s : FS) : option string := fs_names s !! fs_cwd s.

(** [os.chdir(path)], [path] being absolute. *)
Definition chdir (path : string) (s : FS) : exception addr + FS :=
  match fs_paths s !! path with
  | Some d => inr {| fs_cwd := d; fs_paths := fs_paths s; fs_names := fs_names s |}
  | None => inl (Exc OSError [VInt ENOENT; VStr "No such file or directory"])
  end.

Fixpoint ends_with_sep (s : string) : bool :=
  match s with
  | EmptyString => false
  | String c EmptyString => String.eqb s "/"
  | String _ r => ends_with_sep r
  end.

(** [os.path.join(a, b)] of [posixpath]. *)
Definition path_join (a b : string) : string :=
  if String.prefix "/" b then b
  else if String.eqb a "" || ends_with_sep a then a +:+ b
  else a +:+ "/" +:+ b.

(** The [wrapper] that [cwd_at(path)(func)] returns, called with the
    arguments that [func] stands for already applied to; [repo_root] is
    [os.path.dirname(test_dir)], an absolute path.  When [os.getcwd()]
    raises, the [finally] block reads [oldcwd], which was never bound. *)
Definition cwd_at (repo_root path : string) (func : FS → outcome addr * FS)
    (s : FS) : outcome addr * FS :=
  match getcwd s with
  | None =>
      (Raise (Exc (UserError "UnboundLocalError")
                [VStr "local variable 'oldcwd' referenced before assignment"]),
       s)
  | Some oldcwd =>
      let '(result, s1) :=
        match chdir (path_join repo_root path) s with
        | inl e => (Raise e, s)
        | inr s1 => func s1
        end in
      match chdir oldcwd s1 with
      | inl e => (Raise e, s1)
      | inr s2 => (result, s2)
      end
  end.

(** A tree with [/repo] and [/repo/jedi], the process being in [/home];
    and a function that goes to [/] and raises there. *)
Definition small_tree : FS :=
  {| fs_cwd := 3;
     fs_paths := {[ "/" := 0; "/repo" := 1; "/repo/jedi" := 2; "/home" := 3 ]};
     fs_names := {[ 0 := "/"; 1 := "/repo"; 2 := "/repo/jedi"; 3 := "/home" ]} |}.

Definition wandering (s : FS) : outcome addr * FS :=
  (Raise (Exc ValueError [VInt (fs_cwd s)]),
   match chdir "/" s with inr s' => s' | inl _ => s end).

(** ** The channel when pickle raises *)

Section pickling.
Context (functions : string → list pyobj → list (string * wvalue) →
                     outcome AccessHandle * option InferenceState).
Context (format_exc : exception AccessHandle → string).

(** What pickle makes of an object it cannot handle.
    [request_raises q] is the exception [pickle_load(stdin)] raises in
    the worker on the request [q], [dump_raises v] the one
    [pickle_dump(result, stdout, ...)] raises in the worker when the
    result holds [v], and [load_raises v] the one [pickle_load] raises
    on the host while it rebuilds [v]; [None] where pickle does its
    work. *)
Context (request_raises : request Z → option (exception AccessHandle)).
Context (dump_raises : wvalue → option (exception AccessHandle)).
Context (load_raises : value Z → option (exception addr)).

(** The body of the loop of [Listener.listen] for the next request on
    the stream: the response it writes, or how the loop ends.  Only
    [EOFError] is caught around [pickle_load], only [Exception] around
    [self._run], and nothing around [pickle_dump]. *)
Definition listen_step_pickling (payload : request Z) (w : Worker)
    : (response Z + exit_status) * Worker :=
  match request_raises payload with
  | Some e =>
      match exc_type e with
      | EOFError => (inr (Exited 0), w)
      | _ => (inr (Uncaught e), w)
      end
  | None =>
      let p := reqmap __setstate__ payload in
      let '(res, w') := _run functions (req_infer_state_id p) (req_function p)
                          (req_args p) (req_kwargs p) w in
      let tuple :=
        match res with
        | Return v => inl (Response false None v)
        | Raise e =>
            if is_Exception (exc_type e)
            then inl (Response true (Some (format_exc e))
                        (VException (exc_type e) (exc_args e)))
            else inr e
        end in
      match tuple with
      | inr e => (inr (Uncaught e), w')
      | inl r =>
          match dump_raises (result r) with
          | Some e => (inr (Uncaught e), w')
          | None => (inl (respmap __getstate__ r), w')
          end
      end
  end.

(** [Listener.listen] on the requests [stdin], followed by the end of
    the stream. *)
Fixpoint listen_pickling (stdin : list (request Z)) (w : Worker)
    : list (response Z) * exit_status * Worker :=
  match stdin with
  | [] => ([], Exited 0, w)
  | payload :: rest =>
      match listen_step_pickling payload w with
      | (inl resp, w') =>
          let '(out, status, w'') := listen_pickling rest w' in
          (resp :: out, status, w'')
      | (inr status, w') => ([], status, w')
      end
  end.

(** The world of [world_os] with this pickle.  A [pickle_load] that
    raises while it rebuilds a response has not taken the response from
    the stream. *)
Definition pickling_os : OS World := {|
  GeneralizedPopen _ w :=
    (length w,
     w ++ [{| running := Some (Listener__init__ 2); stdin_written := [];
              stdout_unread := []; stderr_unread := "" |}]);
  pickle_dump process data w :=
    match w !! process with
    | Some p =>
        match running p with
        | Some wk =>
            match listen_step_pickling data wk with
            | (inl resp, wk') =>
                (None,
                 <[process := {| running := Some wk';
                                 stdin_written := stdin_written p ++ [data];
                                 stdout_unread := stdout_unread p ++ [resp];
                                 stderr_unread := stderr_unread p |}]> w)
            | (inr _, _) =>
                (None,
                 <[process := {| running := None;
                                 stdin_written := stdin_written p ++ [data];
                                 stdout_unread := stdout_unread p;
                                 stderr_unread := stderr_unread p |}]> w)
            end
        | None => (Some (Exc OSError [VInt EPIPE; VStr "Broken pipe"]), w)
        end
    | None => (Some (Exc OSError [VInt EPIPE; VStr "Broken pipe"]), w)
    end;
  pickle_load process w :=
    match w !! process with
    | Some p =>
        match stdout_unread p with
        | resp :: rest =>
            match load_raises (result resp) with
            | Some e => (inr e, w)
            | None =>
                (inl resp,
                 <[process := {| running := running p;
                                 stdin_written := stdin_written p;
                                 stdout_unread := rest;
                                 stderr_unread := stderr_unread p |}]> w)
            end
        | [] => (inr (Exc EOFError []), w)
        end
    | None => (inr (Exc EOFError []), w)
    end;
  stderr_read process w :=
    match w !! process with
    | Some p =>
        (inl (stderr_unread p),
         <[process := {| running := running p;
                         stdin_written := stdin_written p;
                         stdout_unread := stdout_unread p;
                         stderr_unread := "" |}]> w)
    | None => (inl "", w)
    end;
  _add_stderr_to_debug _ w := w;
  _cleanup_process process w :=
    match w !! process with
    | Some p =>
        <[process := {| running := None; stdin_written := stdin_written p;
                        stdout_unread := []; stderr_unread := "" |}]> w
    | None => w
    end;
  repr e := exc_class_name (exc_type e) +:+ "()"
|}.

(** What makes a request end the loop in state [w]: reading it raises,
    its handling raises what is no [Exception], or its result cannot be
    pickled.  [status] is how the loop ends then. *)
Definition ends_loop (payload : request Z) (w : Worker)
    (status : exit_status) : Prop :=
  match request_raises payload with
  | Some e =>
      status = match exc_type e with EOFError => Exited 0 | _ => Uncaught e end
  | None =>
      let p := reqmap __setstate__ payload in
      match (_run functions (req_infer_state_id p) (req_function p)
               (req_args p) (req_kwargs p) w).1 with
      | Return v => ∃ e, dump_raises v = Some e ∧ status = Uncaught e
      | Raise e =>
          if is_Exception (exc_type e)
          then ∃ e', dump_raises (VException (exc_type e) (exc_args e))
                     = Some e'
                     ∧ status = Uncaught e'
          else status = Uncaught e
      end
  end.
End pickling.

(** The class of the exception a call raised. *)
Definition exc_type_of {H} (o : outcome H) : option exc_class :=
  match o with
  | Raise e => Some (exc_type e)
  | Return _ => None
  end.

(** A pickle that does its work on every object. *)
Definition never_raises {A E : Type} (_ : A) : option E := None.

(** A registry with two classes of exceptions of its own: a class defined
    inside a function, which pickle cannot dump, and a class whose
    [__init__] takes no [args], which pickle cannot rebuild; and the
    pickle that raises on them. *)
Definition own_exceptions (name : string) (args : list pyobj)
    (kwargs : list (string * wvalue))
    : outcome AccessHandle * option InferenceState :=
  if String.eqb name "local" then (Raise (Exc (UserError "LocalError") []), None)
  else if String.eqb name "strict"
  then (Raise (Exc (UserError "StrictError") [VStr "no"]), None)
  else test_functions name args kwargs.

Definition local_dump_raises (v : wvalue) : option (exception AccessHandle) :=
  match v with
  | VException (UserError "LocalError") _ =>
      Some (Exc AttributeError [VStr "Can't pickle local object"])
  | _ => None
  end.

Definition strict_load_raises (v : value Z) : option (exception addr) :=
  match v with
  | VException (UserError "StrictError") _ =>
      Some (Exc TypeError [VStr "__init__() takes 1 positional argument"])
  | _ => None
  end.

(** ** Deletions before the call, as the claim has it *)

(** What the claim says of [run] on a manager with ids queued: the
    worker is written one deletion request for each queued id, in some
    order, and then the request [wire] of the call, and the queue is
    empty afterwards. *)
Definition drained_then_called
    (functions : string → list pyobj → list (string * wvalue) →
                 outcome AccessHandle * option InferenceState)
    (format_exc : exception AccessHandle → string)
    (st : Host World) (p : pid) (i : Z) (f : string)
    (args : list (value addr)) (kwargs : list (string * value addr))
    (wire : request Z) : Prop :=
  let r := @run World (world_os functions format_exc) i f args kwargs st in
  _infer_state_deletion_queue (self r.2) = []
  ∧ ∃ proc proc' deletions,
      os st !! p = Some proc ∧ os r.2 !! p = Some proc'
      ∧ deletions ≡ₚ map deletion_request (_infer_state_deletion_queue (self st))
      ∧ stdin_written proc' = stdin_written proc ++ deletions ++ [wire].

(** * Properties *)

(** ** The conversion of handles *)

Example convert_twice :
  let hp : heap := {[ 0%nat := __setstate__ 7; 1%nat := __setstate__ 7;
                      2%nat := __setstate__ 9 ]} in
  let self := {| _infer_state_id := 42; _handles := ∅ |} in
  let r := _convert_access_handles
             (VTuple [VAccessHandle 0%nat; VList [VAccessHandle 1%nat];
                      VAccessPath (VList [VTuple [VStr "x"; VAccessHandle 2%nat]])])
             (self, hp) in
  r.1 = VTuple [VAccessHandle 0%nat; VList [VAccessHandle 0%nat];
                VAccessPath (VList [VTuple [VStr "x"; VAccessHandle 2%nat]])]
  ∧ _handles r.2.1 !! 7 = Some 0%nat
  ∧ _handles r.2.1 !! 9 = Some 2%nat
  ∧ (_subprocess <$> r.2.2 !! 0%nat) = Some (Some 42)
  ∧ (_subprocess <$> r.2.2 !! 1%nat) = Some None.
Proof. vm_compute. repeat split. Qed.

Section convert_facts.
Implicit Types (σ : _InferenceStateProcess addr * heap) (hp : heap)
  (reg : gmap Z addr) (l : list addr) (a : addr) (i : Z).

Lemma id_at_add_subprocess hp a s :
  id <$> (add_subprocess s <$> hp !! a) = id_at hp a.
Proof. unfold id_at. by destruct (hp !! a). Qed.

Lemma first_seen_app hp i l1 l2 :
  first_seen hp i (l1 ++ l2) = or_else (first_seen hp i l1) (first_seen hp i l2).
Proof.
  induction l1 as [|a l1 IH]; simpl.
  - done.
  - destruct (decide (id_at hp a = Some i)); [done | apply IH].
Qed.

Lemma first_seen_ext hp hp' i l :
  (∀ a, id_at hp' a = id_at hp a) → first_seen hp' i l = first_seen hp i l.
Proof.
  intros E. induction l as [|a l IH]; simpl; [done|].
  rewrite E, IH. done.
Qed.

Lemma first_seen_elem hp i l a :
  first_seen hp i l = Some a → a ∈ l ∧ id_at hp a = Some i.
Proof.
  induction l as [|b l IH]; simpl; [done|].
  case_decide.
  - intros [= <-]. split; [left | done].
  - intros [? ?]%IH. split; [by right | done].
Qed.

Lemma first_seen_is_Some hp i l a :
  a ∈ l → id_at hp a = Some i → is_Some (first_seen hp i l).
Proof.
  induction l as [|b l IH]; simpl; intros Hin Hid.
  - by apply elem_of_nil in Hin.
  - case_decide; [by eexists|].
    apply elem_of_cons in Hin as [->|Hin]; [done | by apply IH].
Qed.

Lemma canonical_ext reg hp hp' a :
  (∀ a, id_at hp' a = id_at hp a) → canonical reg hp' a = canonical reg hp a.
Proof. intros E. unfold canonical. by rewrite E. Qed.

Lemma canon_ext reg hp hp' (v : value addr) :
  (∀ a, id_at hp' a = id_at hp a) → canon reg hp' v = canon reg hp v.
Proof.
  intros E. induction v using value_nested_ind; simpl; try done.
  - f_equal. induction H; simpl; [done|]. by f_equal.
  - f_equal. induction H; simpl; [done|]. by f_equal.
  - f_equal. induction H; simpl; [done|]. by f_equal.
  - f_equal. by apply canonical_ext.
  - by f_equal.
Qed.

(** A larger registry changes nothing for a value whose ids are all
    registered already. *)
Lemma canon_mono reg reg' hp (v : value addr) :
  (∀ a, a ∈ walked v → ∃ i, id_at hp a = Some i ∧ is_Some (reg !! i)) →
  (∀ i c, reg !! i = Some c → reg' !! i = Some c) →
  canon reg hp v = canon reg' hp v.
Proof.
  intros Hw Hsub. induction v using value_nested_ind; simpl in *; try done.
  - f_equal. induction H as [|x r Hx Hr IH]; simpl in *; [done|].
    f_equal.
    + apply Hx. intros a Ha. apply Hw, elem_of_app. by left.
    + apply IH. intros a Ha. apply Hw, elem_of_app. by right.
  - f_equal. induction H as [|x r Hx Hr IH]; simpl in *; [done|].
    f_equal.
    + apply Hx. intros a Ha. apply Hw, elem_of_app. by left.
    + apply IH. intros a Ha. apply Hw, elem_of_app. by right.
  - f_equal. induction H as [|x r Hx Hr IH]; simpl in *; [done|].
    f_equal.
    + apply Hx. intros a Ha. apply Hw, elem_of_app. by left.
    + apply IH. intros a Ha. apply Hw, elem_of_app. by right.
  - f_equal. unfold canonical.
    destruct (Hw h) as (i & -> & [c Hc]); [by left|].
    by rewrite Hc, (Hsub _ _ Hc).
  - f_equal. by apply IHv.
Qed.

Lemma shape_canon reg hp (v : value addr) : shape (canon reg hp v) = shape v.
Proof.
  unfold shape. induction v using value_nested_ind; simpl; try done.
  - f_equal. induction H; simpl; [done|]. by f_equal.
  - f_equal. induction H; simpl; [done|]. by f_equal.
  - f_equal. induction H; simpl; [done|]. by f_equal.
  - by f_equal.
Qed.

Lemma walked_canon reg hp (v : value addr) :
  walked (canon reg hp v) = map (canonical reg hp) (walked v).
Proof.
  induction v using value_nested_ind; simpl; try done.
  - induction H; simpl; [done|]. rewrite map_app. by f_equal.
  - induction H; simpl; [done|]. rewrite map_app. by f_equal.
  - induction H; simpl; [done|]. rewrite map_app. by f_equal.
Qed.

Lemma conv_post_id_at W σ σ' :
  conv_post W σ σ' → ∀ a, id_at σ'.2 a = id_at σ.2 a.
Proof.
  intros (_ & _ & Hh & _) a. unfold id_at at 1.
  destruct (Hh a) as [-> | ->]; [done|]. apply id_at_add_subprocess.
Qed.

Lemma conv_post_refl σ : conv_post [] σ σ.
Proof.
  repeat split; simpl.
  - intros i. by destruct (_handles σ.1 !! i).
  - by left.
  - intros i a -> [=].
Qed.

Lemma conv_post_trans W1 W2 σ σ1 σ2 :
  conv_post W1 σ σ1 → conv_post W2 σ1 σ2 → conv_post (W1 ++ W2) σ σ2.
Proof.
  intros H1 H2.
  pose proof (conv_post_id_at _ _ _ H1) as E1.
  destruct H1 as (S1 & R1 & Hp1 & N1), H2 as (S2 & R2 & Hp2 & N2).
  repeat split.
  - congruence.
  - intros i. rewrite R2, R1, first_seen_app, (first_seen_ext _ _ _ _ E1).
    by destruct (_handles σ.1 !! i), (first_seen σ.2 i W1).
  - intros a. rewrite S1 in Hp2.
    destruct (Hp2 a) as [-> | ->], (Hp1 a) as [-> | ->]; auto.
    right. by destruct (σ.2 !! a).
  - intros i a Hn Hs. rewrite S1 in Hp2, N2.
    destruct (_handles σ1.1 !! i) as [b|] eqn:Hb.
    + assert (b = a) as ->.
      { rewrite R2, Hb in Hs. simpl in Hs. congruence. }
      destruct (N1 _ _ Hn Hb) as (h & Hh & Hsub).
      destruct (Hp2 a) as [-> | ->]; rewrite Hh; simpl; eauto.
    + exact (N2 i a Hb Hs).
Qed.
End convert_facts.

Section convert_correct.
Implicit Types (σ : _InferenceStateProcess addr * heap) (hp : heap).

Lemma conv_post_registered W σ σ' a :
  conv_post W σ σ' → allocated σ.2 W → a ∈ W →
  ∃ i, id_at σ.2 a = Some i ∧ is_Some (_handles σ'.1 !! i).
Proof.
  intros (_ & R & _) Hal Hin. destruct (Hal a Hin) as [i Hi].
  exists i. split; [done|]. rewrite R.
  destruct (_handles σ.1 !! i); [by eexists|]. simpl.
  by eapply first_seen_is_Some.
Qed.

Lemma conv_post_mono W σ σ' i c :
  conv_post W σ σ' → _handles σ.1 !! i = Some c → _handles σ'.1 !! i = Some c.
Proof. intros (_ & R & _) Hc. by rewrite R, Hc. Qed.

Lemma convert_list_ok (l : list (value addr)) :
  Forall convert_ok l →
  ∀ σ, allocated σ.2 (flat_map walked l) →
    let r := mapS _convert_access_handles l σ in
    conv_post (flat_map walked l) σ r.2
    ∧ r.1 = map (canon (_handles r.2.1) σ.2) l.
Proof.
  induction 1 as [|x r Hx Hr IH]; intros σ Hal; simpl.
  - split; [apply conv_post_refl | done].
  - simpl in Hal.
    destruct (Hx σ) as [P1 E1].
    { intros a Ha. apply Hal, elem_of_app. by left. }
    destruct (_convert_access_handles x σ) as [x' σ1]. simpl in P1, E1.
    pose proof (conv_post_id_at _ _ _ P1) as Eid.
    destruct (IH σ1) as [P2 E2].
    { intros a Ha. rewrite Eid. apply Hal, elem_of_app. by right. }
    destruct (mapS _convert_access_handles r σ1) as [r' σ2].
    simpl in P2, E2 |- *. split; [by eapply conv_post_trans|].
    f_equal.
    + rewrite E1. apply canon_mono.
      * intros a Ha. eapply conv_post_registered; [done| |done].
        intros b Hb. apply Hal, elem_of_app. by left.
      * intros i c. by apply conv_post_mono with (W := flat_map walked r).
    + rewrite E2. apply map_ext. intros v. by apply canon_ext.
Qed.

Lemma convert_handle_ok a : convert_ok (VAccessHandle a).
Proof.
  intros [self hp] Hal. simpl in *.
  destruct (Hal a) as [i Hi]; [by left|].
  unfold id_at in Hi. destruct (hp !! a) as [h|] eqn:Hh; [|done].
  simpl in Hi. injection Hi as Hi.
  assert (id_at hp a = Some i) as Hid by (unfold id_at; by rewrite Hh, <- Hi).
  unfold get_access_handle, canonical. rewrite Hid, Hi.
  destruct (_handles self !! i) as [a'|] eqn:Hreg; simpl.
  - split.
    + repeat split; simpl; auto.
      * intros j. destruct (_handles self !! j) eqn:Hj; [done|]. simpl.
        rewrite decide_False; [done|]. rewrite Hid. intros [= ->]. congruence.
      * intros j b Hn Hs. congruence.
    + by rewrite Hreg.
  - split.
    + repeat split; simpl.
      * intros j. destruct (decide (i = j)) as [<-|Hne].
        -- rewrite lookup_insert_eq, Hreg. simpl. by rewrite decide_True.
        -- rewrite lookup_insert_ne by done.
           destruct (_handles self !! j); [done|]. simpl.
           rewrite decide_False; [done|]. rewrite Hid. congruence.
      * intros b. destruct (decide (a = b)) as [<-|Hne].
        -- right. by rewrite lookup_insert_eq, Hh.
        -- left. by rewrite lookup_insert_ne.
      * intros j b Hn Hs. destruct (decide (i = j)) as [<-|Hne].
        -- rewrite lookup_insert_eq in Hs. injection Hs as <-.
           rewrite lookup_insert_eq. by eexists.
        -- rewrite lookup_insert_ne in Hs by done. congruence.
    + by rewrite lookup_insert_eq.
Qed.

Lemma convert_correct (v : value addr) : convert_ok v.
Proof.
  induction v using value_nested_ind;
    try (intros σ _; simpl; split; [apply conv_post_refl | done]).
  - intros σ Hal. simpl.
    destruct (convert_list_ok l H σ Hal) as [P E].
    destruct (mapS _convert_access_handles l σ) as [l' σ'].
    simpl in *. split; [done | by rewrite E].
  - intros σ Hal. simpl.
    destruct (convert_list_ok l H σ Hal) as [P E].
    destruct (mapS _convert_access_handles l σ) as [l' σ'].
    simpl in *. split; [done | by rewrite E].
  - intros σ Hal. simpl.
    destruct (convert_list_ok l H σ Hal) as [P E].
    destruct (mapS _convert_access_handles l σ) as [l' σ'].
    simpl in *. split; [done | by rewrite E].
  - apply convert_handle_ok.
  - intros σ Hal. simpl. destruct (IHv σ Hal) as [P E].
    destruct (_convert_access_handles v σ) as [v' σ'].
    simpl in *. split; [done | by rewrite E].
Qed.
End convert_correct.

Section convert_claims.
Implicit Types (σ : _InferenceStateProcess addr * heap) (hp : heap).

Lemma conv_post_consistent W σ σ' :
  conv_post W σ σ' → reg_consistent σ → reg_consistent σ'.
Proof.
  intros P C i a Ha. rewrite (conv_post_id_at _ _ _ P).
  destruct P as (_ & R & _). rewrite R in Ha.
  destruct (_handles σ.1 !! i) as [b|] eqn:Hb; simpl in Ha.
  - injection Ha as <-. by apply C.
  - by apply first_seen_elem in Ha as [_ ?].
Qed.

Lemma conv_post_canonical W σ σ' a :
  conv_post W σ σ' → allocated σ.2 W → reg_consistent σ → a ∈ W →
  ∃ i, id_at σ.2 a = Some i
       ∧ _handles σ'.1 !! i = Some (canonical (_handles σ'.1) σ.2 a)
       ∧ id_at σ'.2 (canonical (_handles σ'.1) σ.2 a) = Some i.
Proof.
  intros P Hal C Hin.
  destruct (conv_post_registered _ _ _ _ P Hal Hin) as (i & Hi & [c Hc]).
  exists i. unfold canonical. rewrite Hi, Hc. simpl.
  repeat split. by apply (conv_post_consistent _ _ _ P C).
Qed.
End convert_claims.

(** C3, as stated, fails: a handle inside a dict is none of the types
    [_convert_access_handles] looks into.  The dict comes back as it
    was received, its handle is not registered, and the registry stays
    empty. *)
Lemma convert_access_handles_skips_dict :
  let obj := VDict [("k", VAccessHandle 0%nat)] in
  let σ : _InferenceStateProcess addr * heap :=
    ({| _infer_state_id := 1; _handles := ∅ |}, {[ 0%nat := __setstate__ 7 ]}) in
  allocated σ.2 (handles obj)
  ∧ _convert_access_handles obj σ = (obj, σ)
  ∧ ¬ every_handle_canonical obj σ.
Proof.
  simpl. split; [|split].
  - intros a [->|[]%elem_of_nil]%elem_of_cons. by eexists.
  - reflexivity.
  - intros Hc. destruct (Hc 0%nat) as (i & Hi & Hr).
    + simpl. by left.
    + simpl in Hr. by rewrite lookup_empty in Hr.
Qed.

(** C3, amended: [_convert_access_handles] replaces every handle it
    reaches through tuples, lists, [SignatureParam]s and [AccessPath]s by
    the registry's instance for its id, and returns anything else as it
    is.  For two results converted one after the other: each is what was
    received with the handles on the walk replaced, the same type and
    order; the registry keeps what it had and gains, for a new id, the
    first incoming handle with this id, which gets [self] as its
    subprocess; so two handles with one id become one instance, and
    handles with different ids stay handles with different ids. *)
Theorem convert_access_handles_canonical (obj1 obj2 : value addr)
    (σ : _InferenceStateProcess addr * heap) :
  allocated σ.2 (walked obj1) → allocated σ.2 (walked obj2) →
  reg_consistent σ →
  let r1 := _convert_access_handles obj1 σ in
  let r2 := _convert_access_handles obj2 r1.2 in
  let reg1 := _handles r1.2.1 in
  let reg2 := _handles r2.2.1 in
  let W := walked obj1 ++ walked obj2 in
  r1.1 = canon reg1 σ.2 obj1
  ∧ r1.1 = canon reg2 σ.2 obj1
  ∧ r2.1 = canon reg2 σ.2 obj2
  ∧ shape r1.1 = shape obj1
  ∧ shape r2.1 = shape obj2
  ∧ walked r1.1 = map (canonical reg2 σ.2) (walked obj1)
  ∧ walked r2.1 = map (canonical reg2 σ.2) (walked obj2)
  ∧ (∀ i, reg1 !! i = or_else (_handles σ.1 !! i) (first_seen σ.2 i (walked obj1)))
  ∧ (∀ i, reg2 !! i = or_else (reg1 !! i) (first_seen σ.2 i (walked obj2)))
  ∧ (∀ i a, _handles σ.1 !! i = None → reg1 !! i = Some a →
       ∃ h, r1.2.2 !! a = Some h ∧ id h = i
            ∧ _subprocess h = Some (_infer_state_id σ.1))
  ∧ (∀ a, a ∈ W →
       ∃ i, id_at σ.2 a = Some i
            ∧ reg2 !! i = Some (canonical reg2 σ.2 a)
            ∧ id_at r2.2.2 (canonical reg2 σ.2 a) = Some i)
  ∧ (∀ a1 a2, a1 ∈ W → a2 ∈ W → id_at σ.2 a1 = id_at σ.2 a2 →
       canonical reg2 σ.2 a1 = canonical reg2 σ.2 a2)
  ∧ (∀ a1 a2, a1 ∈ W → a2 ∈ W → id_at σ.2 a1 ≠ id_at σ.2 a2 →
       id_at r2.2.2 (canonical reg2 σ.2 a1)
       ≠ id_at r2.2.2 (canonical reg2 σ.2 a2)).
Proof.
  intros Hal1 Hal2 C. simpl.
  destruct (convert_correct obj1 σ Hal1) as [P1 E1].
  set (r1 := _convert_access_handles obj1 σ) in *.
  pose proof (conv_post_id_at _ _ _ P1) as Eid1.
  assert (allocated r1.2.2 (walked obj2)) as Hal2'.
  { intros a Ha. rewrite Eid1. by apply Hal2. }
  destruct (convert_correct obj2 r1.2 Hal2') as [P2 E2].
  set (r2 := _convert_access_handles obj2 r1.2) in *.
  pose proof (conv_post_trans _ _ _ _ _ P1 P2) as P12.
  assert (allocated σ.2 (walked obj1 ++ walked obj2)) as Hal.
  { intros a [?|?]%elem_of_app; auto. }
  assert (r1.1 = canon (_handles r2.2.1) σ.2 obj1) as E1'.
  { rewrite E1. apply canon_mono.
    - intros a Ha. by eapply conv_post_registered.
    - intros i c. by apply conv_post_mono with (W := walked obj2). }
  assert (r2.1 = canon (_handles r2.2.1) σ.2 obj2) as E2'.
  { rewrite E2. by apply canon_ext. }
  assert (∀ a, a ∈ walked obj1 ++ walked obj2 →
    ∃ i, id_at σ.2 a = Some i
         ∧ _handles r2.2.1 !! i = Some (canonical (_handles r2.2.1) σ.2 a)
         ∧ id_at r2.2.2 (canonical (_handles r2.2.1) σ.2 a) = Some i) as K.
  { intros a Ha. by eapply conv_post_canonical. }
  split; [done|]. split; [done|]. split; [done|].
  split; [rewrite E1; apply shape_canon|].
  split; [rewrite E2; apply shape_canon|].
  split; [rewrite E1'; apply walked_canon|].
  split; [rewrite E2'; apply walked_canon|].
  split; [apply P1|].
  split.
  { intros i. destruct P2 as (_ & R2 & _). rewrite R2.
    by rewrite (first_seen_ext _ _ _ _ Eid1). }
  split.
  { intros i a Hn Hs.
    assert (reg_consistent r1.2) as C1
      by (eapply conv_post_consistent; [exact P1 | exact C]).
    destruct P1 as (_ & _ & _ & N1).
    destruct (N1 i a Hn Hs) as (h & Hh & Hsub). exists h.
    repeat split; [done| |done].
    specialize (C1 i a Hs). unfold id_at in C1. rewrite Hh in C1.
    simpl in C1. congruence. }
  split; [exact K|].
  split.
  { intros a1 a2 H1 H2 Heq.
    destruct (K a1 H1) as (i1 & I1 & R1 & _), (K a2 H2) as (i2 & I2 & R2 & _).
    assert (i1 = i2) as -> by congruence. congruence. }
  { intros a1 a2 H1 H2 Hne.
    destruct (K a1 H1) as (i1 & I1 & _ & J1), (K a2 H2) as (i2 & I2 & _ & J2).
    congruence. }
Qed.

(** ** The listener *)

Section listener_facts.
Context (functions : string → list pyobj → list (string * wvalue) →
                     outcome AccessHandle * option InferenceState).
Context (format_exc : exception AccessHandle → string).

Local Abbreviation run_ := (_run functions).
Local Abbreviation listen_step_ := (listen_step functions format_exc).
Local Abbreviation listen_ := (listen functions format_exc).

Lemma get_infer_state_spec f i w :
  worker_wf w →
  let r := _get_infer_state f i w in
  r.1 = default (length (memory w)) (_infer_states (listener w) !! i)
  ∧ _infer_states (listener r.2) !! i = Some r.1
  ∧ is_Some (memory r.2 !! r.1)
  ∧ calls r.2 = calls w
  ∧ worker_wf r.2.
Proof.
  intros Hwf. unfold _get_infer_state.
  destruct (_infer_states (listener w) !! i) as [a|] eqn:Hi; simpl.
  - repeat split; eauto.
  - repeat split.
    + by rewrite lookup_insert_eq.
    + rewrite lookup_app_r, Nat.sub_diag by lia. by eexists.
    + intros j b. simpl. destruct (decide (i = j)) as [<-|Hne].
      * rewrite lookup_insert_eq. intros [= <-].
        rewrite lookup_app_r, Nat.sub_diag by lia. by eexists.
      * rewrite lookup_insert_ne by done. intros [s Hs]%Hwf.
        exists s. by apply lookup_app_l_Some.
Qed.

Lemma exchange_args_spec reg args :
  resolvable reg args →
  ∃ args', exchange_args reg args = inr args' ∧ Forall2 (exchanged reg) args args'.
Proof.
  induction 1 as [|v r Hv Hr (r' & Er & Fr)]; simpl.
  - exists []. by split.
  - assert (∃ v', exchange reg v = inr v' ∧ exchanged reg v v') as (v' & Ev & Xv).
    { destruct v; simpl; try by eexists.
      destruct Hv as [live Hl]. unfold get_access_handle. rewrite Hl.
      eexists. split; [done|]. by exists live. }
    rewrite Ev, Er. exists (v' :: r'). split; [done | by constructor].
Qed.

Lemma exchange_kwargs_spec reg kwargs :
  resolvable reg kwargs.*2 →
  ∃ kwargs', exchange_kwargs reg kwargs = inr kwargs'
             ∧ kwargs'.*1 = kwargs.*1
             ∧ Forall2 (exchanged reg) kwargs.*2 kwargs'.*2.
Proof.
  induction kwargs as [|[key v] r IH]; simpl; intros Hres.
  - exists []. by repeat split.
  - apply Forall_cons in Hres as [Hv Hr].
    destruct (IH Hr) as (r' & Er & Kr & Fr).
    assert (∃ v', exchange reg v = inr v' ∧ exchanged reg v v') as (v' & Ev & Xv).
    { destruct v; simpl; try by eexists.
      destruct Hv as [live Hl]. unfold get_access_handle. rewrite Hl.
      eexists. split; [done|]. by exists live. }
    rewrite Ev, Er. exists ((key, v') :: r'). simpl.
    repeat split; [by f_equal | by constructor].
Qed.

(** C5: the dispatch of [Listener._run].  Without a context id the
    function is called on the arguments as they are, with no session.
    Without a function, the map has no session for the id afterwards and
    nothing is called.  Otherwise the session of the id is the one in
    the map, or a new one put there; when the handles among the
    arguments are in its registry, each is replaced by the live handle
    of its id, the function is called with the session first, and what
    it returns is the outcome, which the loop sends as the payload of
    the response. *)
Theorem run_dispatches (args : list wvalue) (kwargs : list (string * wvalue))
    (w : Worker) :
  worker_wf w →
  (∀ f, _run functions None (Some f) args kwargs w
        = ((functions f (map ArgValue args) kwargs).1,
           record_call (Call f None args kwargs) w))
  ∧ (∀ i, let r := _run functions (Some i) None args kwargs w in
          _infer_states (listener r.2) = delete i (_infer_states (listener w))
          ∧ _infer_states (listener r.2) !! i = None
          ∧ memory r.2 = memory w
          ∧ calls r.2 = calls w
          ∧ (is_Some (_infer_states (listener w) !! i) → r.1 = Return VNone))
  ∧ (∀ i f,
       let a := default (length (memory w)) (_infer_states (listener w) !! i) in
       let w1 := (_get_infer_state f i w).2 in
       memory w1 = match _infer_states (listener w) !! i with
                   | Some _ => memory w
                   | None => memory w ++ [InferenceState__init__ a]
                   end
       ∧ ∃ infer_state, memory w1 !! a = Some infer_state
         ∧ (resolvable (compiled_subprocess infer_state) args →
            resolvable (compiled_subprocess infer_state) kwargs.*2 →
            ∃ args' kwargs',
              Forall2 (exchanged (compiled_subprocess infer_state)) args args'
              ∧ kwargs'.*1 = kwargs.*1
              ∧ Forall2 (exchanged (compiled_subprocess infer_state))
                  kwargs.*2 kwargs'.*2
              ∧ let r := _run functions (Some i) (Some f) args kwargs w in
                let c := functions f
                           (ArgInferenceState infer_state :: map ArgValue args')
                           kwargs' in
                r.1 = c.1
                ∧ _infer_states (listener r.2) !! i = Some a
                ∧ memory r.2 = <[a := default infer_state c.2]> (memory w1)
                ∧ calls r.2 = calls w ++ [Call f (Some a) args' kwargs']))
  ∧ (∀ payload v w',
       let p := reqmap __setstate__ payload in
       _run functions (req_infer_state_id p) (req_function p) (req_args p)
         (req_kwargs p) w = (Return v, w') →
       listen_step functions format_exc payload w
       = (inl (Response false None (pickle_dump_value v)), w')).
Proof.
  intros Hwf. split; [done|]. split; [|split].
  - intros i. simpl.
    destruct (_infer_states (listener w) !! i) as [a|] eqn:Hi; simpl.
    + split_and!; try done. apply lookup_delete_eq.
    + split_and!; try done. by rewrite delete_id.
  - intros i f. simpl.
    assert (memory (_get_infer_state f i w).2
            = match _infer_states (listener w) !! i with
              | Some _ => memory w
              | None => memory w ++ [InferenceState__init__
                  (default (length (memory w)) (_infer_states (listener w) !! i))]
              end) as Em.
    { unfold _get_infer_state.
      by destruct (_infer_states (listener w) !! i). }
    split; [exact Em|]. clear Em.
    pose proof (get_infer_state_spec f i w Hwf) as Hg. simpl in Hg.
    unfold _run.
    destruct (_get_infer_state f i w) as [a w1] eqn:Eg. simpl in *.
    destruct Hg as (<- & Hm & [s Hs] & Hc & Hwf1).
    exists s. split; [done|].
    intros Ra Rk.
    destruct (exchange_args_spec _ _ Ra) as (args' & Eargs & Fa).
    destruct (exchange_kwargs_spec _ _ Rk) as (kwargs' & Ekw & Kk & Fk).
    exists args', kwargs'. split; [done|]. split; [done|]. split; [done|].
    rewrite Hs, Eargs, Ekw. simpl. by rewrite Hc.
  - intros payload v w' p Hr. unfold listen_step. fold p. by rewrite Hr.
Qed.

Lemma run_one_session i f args kwargs w :
  no_session w ∨ one_session i w →
  one_session i (run_ (Some i) (Some f) args kwargs w).2.
Proof.
  intros Hw. unfold _run, _get_infer_state.
  destruct Hw as [(Hm & Hs & Hc) | (Hm & Hs & Hc)]; rewrite Hs.
  - rewrite lookup_empty, Hm. simpl.
    destruct (exchange_args _ _) as [e|args']; simpl.
    { split_and!; simpl; [done | by rewrite insert_empty | by rewrite Hc]. }
    destruct (exchange_kwargs _ _) as [e|kwargs']; simpl.
    { split_and!; simpl; [done | by rewrite insert_empty | by rewrite Hc]. }
    split_and!; simpl; [done | by rewrite insert_empty |].
    rewrite Hc. by repeat constructor.
  - rewrite lookup_singleton_eq.
    destruct (memory w) as [|s [|? ?]] eqn:Em; try done. simpl.
    destruct (exchange_args _ _) as [e|args']; simpl.
    { split_and!; simpl; rewrite ?Em; done. }
    destruct (exchange_kwargs _ _) as [e|kwargs']; simpl.
    { split_and!; simpl; rewrite ?Em; done. }
    split_and!; simpl; rewrite ?Em; try done.
    apply Forall_app. split; [done | by repeat constructor].
Qed.

Lemma listen_step_state payload w :
  (listen_step_ payload w).2
  = (run_ (req_infer_state_id payload) (req_function payload)
       (map (vmap __setstate__) (req_args payload))
       (kwmap __setstate__ (req_kwargs payload)) w).2.
Proof.
  unfold listen_step. simpl.
  destruct (run_ _ _ _ _ w) as [[v|e] w']; [done|].
  by destruct (is_Exception (exc_type e)).
Qed.

Lemma listen_one_session i stdin w :
  Forall (λ r, req_infer_state_id r = Some i ∧ is_Some (req_function r)) stdin →
  one_session i w → one_session i (listen_ stdin w).2.
Proof.
  intros Hall. revert w.
  induction Hall as [|payload rest [Hi [f Hf]] Hrest IH]; intros w Hw; [done|].
  simpl.
  pose proof (listen_step_state payload w) as Es. rewrite Hi, Hf in Es.
  pose proof (run_one_session i f (map (vmap __setstate__) (req_args payload))
                (kwmap __setstate__ (req_kwargs payload)) w (or_intror Hw)) as H1.
  rewrite <- Es in H1.
  destruct (listen_step_ payload w) as [[resp|e] w1]; simpl in *; [|done].
  specialize (IH w1 H1).
  by destruct (listen_ rest w1) as [[out status] w2].
Qed.

(** C4: the requests of a stream that all name context [i], with a
    function, run against a new worker.  One session object is made: by
    the first request, which puts it in the map under [i]; every call
    of a function is given this object; a later request finds it in the
    map and makes none.  Once a deletion request has removed it, the
    next request for [i] makes a second object. *)
Theorem one_session_per_context (i : Z) (stdin : list (request Z))
    (protocol : Z) :
  stdin ≠ [] →
  Forall (λ r, req_infer_state_id r = Some i ∧ is_Some (req_function r)) stdin →
  let w := (listen functions format_exc stdin (Listener__init__ protocol)).2 in
  (∀ f, let r := _get_infer_state f i (Listener__init__ protocol) in
        r.1 = 0%nat ∧ memory r.2 = [InferenceState__init__ 0%nat]
        ∧ _infer_states (listener r.2) = {[ i := 0%nat ]})
  ∧ length (memory w) = 1%nat
  ∧ _infer_states (listener w) = {[ i := 0%nat ]}
  ∧ Forall (λ c, call_session c = Some 0%nat) (calls w)
  ∧ (∀ f, _get_infer_state f i w = (0%nat, w))
  ∧ (let wd := (_run functions (Some i) None [] [] w).2 in
     _infer_states (listener wd) = ∅
     ∧ ∀ f args kwargs,
         let w' := (_run functions (Some i) (Some f) args kwargs wd).2 in
         length (memory w') = 2%nat
         ∧ _infer_states (listener w') = {[ i := 1%nat ]}).
Proof.
  intros Hne Hall. simpl.
  assert (one_session i (listen_ stdin (Listener__init__ protocol)).2) as Hone.
  { destruct Hall as [|payload rest [Hi [f Hf]] Hrest]; [done|]. simpl.
    pose proof (listen_step_state payload (Listener__init__ protocol)) as Es.
    rewrite Hi, Hf in Es.
    pose proof (run_one_session i f (map (vmap __setstate__) (req_args payload))
                  (kwmap __setstate__ (req_kwargs payload))
                  (Listener__init__ protocol)
                  (or_introl (conj eq_refl (conj eq_refl eq_refl)))) as H1.
    rewrite <- Es in H1.
    destruct (listen_step_ payload _) as [[resp|e] w1]; simpl in *; [|done].
    pose proof (listen_one_session i rest w1 Hrest H1) as H2.
    by destruct (listen_ rest w1) as [[out status] w2]. }
  set (w := (listen_ stdin (Listener__init__ protocol)).2) in *.
  destruct Hone as (Hm & Hs & Hc).
  split.
  { intros f. unfold _get_infer_state. simpl. rewrite lookup_empty. simpl.
    split_and!; try done; by rewrite insert_empty. }
  split; [done|]. split; [done|]. split; [done|]. split.
  { intros f. unfold _get_infer_state. by rewrite Hs, lookup_singleton_eq. }
  rewrite Hs, lookup_singleton_eq. simpl. rewrite delete_singleton_eq.
  split; [done|]. intros f args kwargs.
  unfold _run, _get_infer_state. simpl. rewrite lookup_empty. simpl.
  rewrite lookup_app_r, Hm, Nat.sub_diag by lia. simpl.
  destruct (exchange_args _ _) as [e|args']; simpl.
  { rewrite length_app, Hm. split; [done | by rewrite insert_empty]. }
  destruct (exchange_kwargs _ _) as [e|kwargs']; simpl.
  { rewrite length_app, Hm. split; [done | by rewrite insert_empty]. }
  rewrite length_insert, length_app, Hm. split; [done | by rewrite insert_empty].
Qed.

(** Deleting a context that has no session: [KeyError], and the worker
    is as it was. *)
Lemma run_delete_absent i args kwargs w :
  _infer_states (listener w) !! i = None →
  run_ (Some i) None args kwargs w = (Raise (Exc KeyError [VInt i]), w).
Proof. intros Hi. unfold _run. by rewrite Hi. Qed.

Lemma run_delete_present i a args kwargs w :
  _infer_states (listener w) !! i = Some a →
  run_ (Some i) None args kwargs w
  = (Return VNone,
     {| listener :=
          {| _infer_states := delete i (_infer_states (listener w));
             listener_pickle_protocol := listener_pickle_protocol (listener w) |};
        memory := memory w; calls := calls w |}).
Proof. intros Hi. unfold _run. by rewrite Hi. Qed.
End listener_facts.


(** ** The manager, whatever the world *)

Section manager_facts.
Context {W : Type} `{OS W}.
Implicit Types (st : Host W).

Lemma get_process_spec st :
  let r := _get_process st in
  _get_process_memo (self r.2) = Some r.1
  ∧ is_crashed (self r.2) = is_crashed (self st)
  ∧ _executable (self r.2) = _executable (self st)
  ∧ _infer_state_deletion_queue (self r.2) = _infer_state_deletion_queue (self st)
  ∧ objects r.2 = objects st.
Proof.
  unfold _get_process. destruct (_get_process_memo (self st)) eqn:Hm; [done|].
  by destruct (GeneralizedPopen _ _).
Qed.

Lemma get_process_again st p :
  _get_process_memo (self st) = Some p → _get_process st = (p, st).
Proof. intros Hm. unfold _get_process. by rewrite Hm. Qed.

Lemma kill_spec st :
  is_crashed (self (_kill st)) = true
  ∧ _executable (self (_kill st)) = _executable (self st)
  ∧ _get_process_memo (self (_kill st)) = _get_process_memo (self st)
  ∧ _infer_state_deletion_queue (self (_kill st))
    = _infer_state_deletion_queue (self st)
  ∧ objects (_kill st) = objects st.
Proof. unfold _kill. by destruct (_cleanup_callable (self st)). Qed.

(** A crashed manager raises at once: nothing else happens. *)
Lemma send_crashed st i f args kwargs :
  is_crashed (self st) = true →
  _send i f args kwargs st
  = (Raise (InternalError_
              ("The subprocess " +:+ _executable (self st) +:+ " has crashed.")),
     st).
Proof. intros Hc. unfold _send. by rewrite Hc. Qed.

Lemma delete_old_crashed n st :
  is_crashed (self st) = true →
  let st' := (delete_old n st).2 in
  is_crashed (self st') = true ∧ os st' = os st
  ∧ _get_process_memo (self st') = _get_process_memo (self st)
  ∧ _executable (self st') = _executable (self st).
Proof.
  intros Hc. destruct n as [|n]; simpl; [done|].
  destruct (deque_pop _) as [[i q]|]; [|done].
  by rewrite send_crashed.
Qed.

Lemma perform_crashed c st :
  is_crashed (self st) = true →
  is_crashed (self (perform c st)) = true ∧ os (perform c st) = os st
  ∧ _get_process_memo (self (perform c st)) = _get_process_memo (self st)
  ∧ _executable (self (perform c st)) = _executable (self st).
Proof.
  intros Hc. destruct c as [i f a k | i f a k | | i]; simpl.
  - by rewrite send_crashed.
  - unfold run.
    pose proof (delete_old_crashed
                  (length (_infer_state_deletion_queue (self st))) st Hc) as Hd.
    destruct (delete_old _ st) as [[e|] st']; simpl in *; [done|].
    destruct Hd as (Hc' & ? & ? & ?). by rewrite send_crashed.
  - unfold get_sys_path. by rewrite send_crashed.
  - done.
Qed.

Lemma perform_all_crashed cs st :
  is_crashed (self st) = true →
  is_crashed (self (perform_all cs st)) = true
  ∧ os (perform_all cs st) = os st
  ∧ _get_process_memo (self (perform_all cs st)) = _get_process_memo (self st)
  ∧ _executable (self (perform_all cs st)) = _executable (self st).
Proof.
  revert st. induction cs as [|c cs IH]; intros st Hc; simpl; [done|].
  destruct (perform_crashed c st Hc) as (Hc' & Ho & Hm & He).
  destruct (IH _ Hc') as (? & ? & ? & ?). split_and!; congruence.
Qed.

(** C1: a manager that is not crashed sends a request, and the write
    fails with a broken pipe, or the read of the response finds the end
    of the stream.  Then [_send] raises [InternalError] and the manager
    is crashed; and whatever is called on it later, it stays crashed,
    nothing happens in the world (nothing is written, no process is
    started), and every [_send] raises [InternalError] at once. *)
Theorem crashed_is_permanent i f args kwargs wire st :
  is_crashed (self st) = false →
  pickle_request (objects st) (Request i f args kwargs) = Some wire →
  write_breaks wire st ∨ read_ends wire st →
  let r := _send i f args kwargs st in
  (∃ msg, r.1 = Raise (InternalError_ msg))
  ∧ is_crashed (self r.2) = true
  ∧ ∀ later : list manager_call,
      let st' := perform_all later r.2 in
      is_crashed (self st') = true
      ∧ os st' = os r.2
      ∧ _get_process_memo (self st') = _get_process_memo (self r.2)
      ∧ ∀ i' f' args' kwargs',
          _send i' f' args' kwargs' st'
          = (Raise (InternalError_
                      ("The subprocess " +:+ _executable (self st')
                       +:+ " has crashed.")), st').
Proof.
  intros Hnc Hp Hbroken.
  assert (let r := _send i f args kwargs st in
          (∃ msg, r.1 = Raise (InternalError_ msg))
          ∧ is_crashed (self r.2) = true) as [Hmsg Hcr].
  { unfold _send. rewrite Hnc.
    pose proof (get_process_spec st) as (Hm1 & _ & _ & _ & Ho1).
    unfold write_breaks, read_ends in Hbroken.
    destruct (_get_process st) as [p st1]. simpl in *.
    rewrite Ho1, Hp.
    destruct Hbroken as [(e & Hd & Ht & He) | (Hd & (e & Hl & Ht) & Hs)].
    - destruct (pickle_dump p wire (os st1)) as [err w2]. simpl in Hd.
      subst err. rewrite Ht, bool_decide_true by done. simpl.
      split; [by eexists | apply kill_spec].
    - destruct (pickle_dump p wire (os st1)) as [err w2]. simpl in *.
      subst err.
      rewrite (get_process_again (set_os w2 st1) p) by done. simpl.
      destruct (pickle_load p w2) as [loaded w4]. simpl in *. subst loaded.
      rewrite Ht.
      rewrite (get_process_again (set_os w4 (set_os w2 st1)) p) by done.
      simpl. destruct (stderr_read p w4) as [[err|exc] w6]; simpl in *.
      + split; [by eexists | apply kill_spec].
      + rewrite Hs. simpl. split; [by eexists | apply kill_spec]. }
  split; [done|]. split; [done|].
  intros later. simpl.
  destruct (perform_all_crashed later _ Hcr) as (Hc' & Ho' & Hm' & He').
  split_and!; try done.
  intros i' f' args' kwargs'. by apply send_crashed.
Qed.

(** [delete_infer_state] only puts the id at the end of the queue: the
    world is as it was. *)
Lemma delete_infer_state_spec i st :
  os (delete_infer_state i st) = os st
  ∧ objects (delete_infer_state i st) = objects st
  ∧ _infer_state_deletion_queue (self (delete_infer_state i st))
    = _infer_state_deletion_queue (self st) ++ [i]
  ∧ is_crashed (self (delete_infer_state i st)) = is_crashed (self st)
  ∧ _get_process_memo (self (delete_infer_state i st))
    = _get_process_memo (self st)
  ∧ _cleanup_callable (self (delete_infer_state i st))
    = _cleanup_callable (self st).
Proof. done. Qed.
End manager_facts.

(** ** The manager and a worker *)

Section world_facts.
Context (functions : string → list pyobj → list (string * wvalue) →
                     outcome AccessHandle * option InferenceState).
Context (format_exc : exception AccessHandle → string).

Local Abbreviation send_ := (@_send World (world_os functions format_exc)).
Local Abbreviation run_ := (@run World (world_os functions format_exc)).
Local Abbreviation listen_step_ := (listen_step functions format_exc).

(** One round trip of a connected manager: the listener handles the
    request; its response is read and delivered, or there is none
    because the listener has ended, and the manager is crashed. *)
Lemma send_connected st p wk log err i f args kwargs wire :
  connected st p wk log err →
  pickle_request (objects st) (Request i f args kwargs) = Some wire →
  send_ i f args kwargs st
  = match listen_step_ wire wk with
    | (inl resp, wk') =>
        let '(res, hp) := unpickle (result resp) (objects st) in
        (deliver (is_exception resp) (traceback resp) res,
         Build_Host (self st) hp
           (<[p := {| running := Some wk'; stdin_written := log ++ [wire];
                      stdout_unread := []; stderr_unread := err |}]> (os st)))
    | (inr e, _) =>
        (Raise (InternalError_
                  ("The subprocess " +:+ _executable (self st)
                   +:+ " has crashed (EOFError(), stderr=" +:+ err +:+ ").")),
         Build_Host
           {| is_crashed := true;
              _pickle_protocol := _pickle_protocol (self st);
              _executable := _executable (self st);
              _infer_state_deletion_queue := _infer_state_deletion_queue (self st);
              _get_process_memo := Some p;
              _cleanup_callable := finalized |}
           (objects st)
           (<[p := {| running := None; stdin_written := log ++ [wire];
                      stdout_unread := []; stderr_unread := "" |}]> (os st)))
    end.
Proof.
  intros (Hnc & Hm & Hcl & Hp) Hpick.
  pose proof (lookup_lt_Some _ _ _ Hp) as Hlt.
  destruct st as [c hp w]. simpl in *.
  unfold _send, _get_process. simpl. rewrite Hnc, Hm. simpl.
  rewrite Hpick. simpl. rewrite Hp. simpl.
  destruct (listen_step_ wire wk) as [[resp|e] wk1]; simpl.
  - rewrite Hm. simpl. rewrite list_lookup_insert_eq by done. simpl.
    rewrite list_insert_insert_eq.
    by destruct (unpickle (result resp) hp) as [res hp'].
  - rewrite Hm. simpl. rewrite list_lookup_insert_eq by done. simpl.
    rewrite Hm. simpl. rewrite list_lookup_insert_eq by done. simpl.
    rewrite list_insert_insert_eq.
    unfold _kill. simpl. rewrite Hcl. simpl.
    rewrite list_lookup_insert_eq by done. simpl.
    rewrite list_insert_insert_eq. by rewrite Hm.
Qed.

Lemma connected_after st p wk log err hp wk' log' :
  connected st p wk log err →
  connected
    (Build_Host (self st) hp
       (<[p := {| running := Some wk'; stdin_written := log';
                  stdout_unread := []; stderr_unread := err |}]> (os st)))
    p wk' log' err.
Proof.
  intros (Hnc & Hm & Hcl & Hp). split_and!; simpl; try done.
  apply list_lookup_insert_eq. by eapply lookup_lt_Some.
Qed.

Lemma unpickle_exception c l hp :
  ∃ l' hp', unpickle (VException c l) hp = (VException c l', hp').
Proof. simpl. destruct (mapS unpickle l hp) as [l' hp']. by eexists _, _. Qed.

(** The round trip of a deletion request for a context that has a
    session. *)
Lemma send_delete_present st p wk log err i a :
  connected st p wk log err →
  _infer_states (listener wk) !! i = Some a →
  let wk' := {| listener :=
                  {| _infer_states := delete i (_infer_states (listener wk));
                     listener_pickle_protocol :=
                       listener_pickle_protocol (listener wk) |};
                memory := memory wk; calls := calls wk |} in
  send_ (Some i) None [] [] st
  = (Return VNone,
     Build_Host (self st) (objects st)
       (<[p := {| running := Some wk';
                  stdin_written := log ++ [deletion_request i];
                  stdout_unread := []; stderr_unread := err |}]> (os st))).
Proof.
  intros Hc Hi. simpl.
  rewrite (send_connected st p wk log err (Some i) None [] []
             (deletion_request i) Hc eq_refl).
  unfold listen_step, _run. simpl. by rewrite Hi.
Qed.

(** The round trip of a deletion request for a context that has no
    session. *)
Lemma send_delete_absent st p wk log err i :
  connected st p wk log err →
  _infer_states (listener wk) !! i = None →
  send_ (Some i) None [] [] st
  = (Raise (Exc KeyError [VStr (format_exc (Exc KeyError [VInt i]))]),
     Build_Host (self st) (objects st)
       (<[p := {| running := Some wk;
                  stdin_written := log ++ [deletion_request i];
                  stdout_unread := []; stderr_unread := err |}]> (os st))).
Proof.
  intros Hc Hi.
  rewrite (send_connected st p wk log err (Some i) None [] []
             (deletion_request i) Hc eq_refl).
  unfold listen_step, _run. simpl. by rewrite Hi.
Qed.

(** C10: deleting a context that has no session in the worker.  The
    handler raises [KeyError] and leaves the worker as it was; the
    listener answers with the failure response; [_send] raises
    [KeyError] on the host, and the manager stays connected.  Deleting
    one context twice in a row: the first deletion returns, the second
    raises. *)
Theorem delete_missing_context_raises st p wk log err i :
  connected st p wk log err →
  (_infer_states (listener wk) !! i = None →
   let e : exception AccessHandle := Exc KeyError [VInt i] in
   let r := _send (H := world_os functions format_exc)
              (Some i) None [] [] st in
   _run functions (Some i) None [] [] wk = (Raise e, wk)
   ∧ listen_step functions format_exc (deletion_request i) wk
     = (inl (Response true (Some (format_exc e)) (VException KeyError [VInt i])),
        wk)
   ∧ r.1 = Raise (Exc KeyError [VStr (format_exc e)])
   ∧ connected r.2 p wk (log ++ [deletion_request i]) err)
  ∧ (is_Some (_infer_states (listener wk) !! i) →
     let e : exception AccessHandle := Exc KeyError [VInt i] in
     let r1 := _send (H := world_os functions format_exc)
                 (Some i) None [] [] st in
     let r2 := _send (H := world_os functions format_exc)
                 (Some i) None [] [] r1.2 in
     r1.1 = Return VNone
     ∧ r2.1 = Raise (Exc KeyError [VStr (format_exc e)])
     ∧ ∃ wk', connected r2.2 p wk'
                (log ++ [deletion_request i; deletion_request i]) err
              ∧ _infer_states (listener wk')
                = delete i (_infer_states (listener wk))).
Proof.
  intros Hc. split.
  - intros Hi. simpl.
    rewrite (send_delete_absent st p wk log err i Hc Hi). simpl.
    unfold listen_step, _run. simpl. rewrite Hi. simpl.
    split_and!; try done. by eapply connected_after.
  - intros [a Hi]. simpl.
    rewrite (send_delete_present st p wk log err i a Hc Hi). simpl.
    split; [done|].
    match goal with
    | |- context [<[p := {| running := Some ?w; stdin_written := ?l;
                          stdout_unread := _; stderr_unread := _ |}]> _] =>
        pose proof (connected_after st p wk log err (objects st) w l Hc) as Hc';
        assert (_infer_states (listener w) !! i = None) as Hn
          by apply lookup_delete_eq;
        rewrite (send_delete_absent _ p _ _ err i Hc' Hn);
        split; [done|]; exists w; split; [|reflexivity]
    end.
    replace (log ++ [deletion_request i; deletion_request i])
      with ((log ++ [deletion_request i]) ++ [@deletion_request Z i])
      by (by rewrite <- app_assoc).
    eapply connected_after. exact Hc'.
Qed.

Lemma deque_pop_snoc q x : deque_pop (q ++ [x]) = Some (x, q).
Proof.
  unfold deque_pop. rewrite reverse_app. simpl. by rewrite reverse_involutive.
Qed.

Lemma connected_set_queue st p wk log err q :
  connected st p wk log err → connected (set_queue q st) p wk log err.
Proof. by intros (? & ? & ? & ?). Qed.

(** The loop of [run] on a connected manager whose queued contexts all
    have their session: every deletion request is written and answered,
    last queued first, and the queue ends empty. *)
Lemma delete_old_connected p err q :
  ∀ n st wk log,
    connected st p wk log err →
    _infer_state_deletion_queue (self st) = q →
    NoDup q →
    (∀ j, j ∈ q → is_Some (_infer_states (listener wk) !! j)) →
    (length q ≤ n)%nat →
    ∃ st_d wk_d,
      @delete_old World (world_os functions format_exc) n st = (None, st_d)
      ∧ connected st_d p wk_d (log ++ map deletion_request (reverse q)) err
      ∧ _infer_state_deletion_queue (self st_d) = []
      ∧ objects st_d = objects st
      ∧ _infer_states (listener wk_d)
        = foldr delete (_infer_states (listener wk)) q
      ∧ memory wk_d = memory wk
      ∧ calls wk_d = calls wk.
Proof.
  induction q as [|x q IH] using rev_ind; intros n st wk log Hc Hq Hnd Hall Hn.
  - exists st, wk. rewrite app_nil_r. split_and!; try done.
    destruct n; simpl; [done|]. by rewrite Hq.
  - rewrite length_app in Hn. simpl in Hn.
    destruct n as [|n]; [lia|]. simpl. rewrite Hq, deque_pop_snoc.
    apply NoDup_app in Hnd as (Hnd & Hnx & _).
    destruct (Hall x) as [a Ha]; [apply elem_of_app; right; by left|].
    pose proof (connected_set_queue st p wk log err q Hc) as Hcq.
    rewrite (send_delete_present _ p wk log err x a Hcq Ha).
    match goal with
    | |- context [delete_old n (Build_Host ?c ?h
                    (<[p := {| running := Some ?w; stdin_written := ?l;
                               stdout_unread := _; stderr_unread := _ |}]> _))] =>
        pose proof (connected_after _ p wk log err h w l Hcq) as Hc';
        destruct (IH n _ w l Hc' eq_refl Hnd)
          as (st_d & wk_d & Hd & Hcd & Hqd & Ho & Hm & Hmem & Hcalls)
    end.
    + intros j Hj. simpl. rewrite lookup_delete_ne.
      * apply Hall, elem_of_app. by left.
      * intros ->. by apply (Hnx j), list_elem_of_singleton.
    + lia.
    + exists st_d, wk_d. rewrite Hd. split; [done|].
      rewrite reverse_app. simpl. rewrite <- app_assoc in Hcd.
      split_and!; try done. by rewrite foldr_app.
Qed.

End world_facts.


(** ** Pickling a handle *)

Section pickle_facts.
Implicit Types (hp : heap).

Lemma mapO_impl {A B} (f g : A → option B) (l : list A) l' :
  Forall (λ x, ∀ y, f x = Some y → g x = Some y) l →
  mapO f l = Some l' → mapO g l = Some l'.
Proof.
  intros Hall. revert l'. induction Hall as [|x r Hx Hr IH]; intros l'; simpl.
  - done.
  - destruct (f x) as [y|] eqn:Ef; [|done]. rewrite (Hx y eq_refl).
    destruct (mapO f r) as [r'|]; [|done]. by rewrite (IH r' eq_refl).
Qed.

(** What is pickled in a heap is pickled the same in a larger one. *)
Lemma pickle_mono hp hp' (v : value addr) :
  hp ⊆ hp' → ∀ w, pickle hp v = Some w → pickle hp' v = Some w.
Proof.
  intros Hsub. induction v using value_nested_ind; intros w; simpl; try done.
  - destruct (mapO (pickle hp) l) as [l'|] eqn:E; [|done].
    by rewrite (mapO_impl _ _ _ _ H E).
  - destruct (mapO (pickle hp) l) as [l'|] eqn:E; [|done].
    by rewrite (mapO_impl _ _ _ _ H E).
  - destruct (mapO _ l) as [l'|] eqn:E; [|done].
    erewrite mapO_impl; [done | | exact E].
    eapply Forall_impl; [exact H|]. intros [k x] Hx y. simpl in *.
    destruct (pickle hp x) as [wx|] eqn:Ex; [|done].
    by rewrite (Hx _ eq_refl).
  - destruct (mapO (pickle hp) l) as [l'|] eqn:E; [|done].
    by rewrite (mapO_impl _ _ _ _ H E).
  - destruct (hp !! h) as [x|] eqn:E; [|done].
    by rewrite (lookup_weaken _ _ _ _ E Hsub).
  - destruct (pickle hp v) as [wv|] eqn:E; [|done].
    by rewrite (IHv _ eq_refl).
  - destruct (mapO (pickle hp) l) as [l'|] eqn:E; [|done].
    by rewrite (mapO_impl _ _ _ _ H E).
Qed.

(** What unpickling one value achieves: the heap grows, the value
    pickles back to what was read, and each of its handles is a new
    object with nothing but its id. *)
Definition unpickle_ok (w : value Z) : Prop :=
  ∀ hp, let r := unpickle w hp in
    hp ⊆ r.2
    ∧ pickle r.2 r.1 = Some w
    ∧ ∀ a, a ∈ handles r.1 →
           hp !! a = None ∧ ∃ state, r.2 !! a = Some (__setstate__ state).

Lemma unpickle_list_ok (l : list (value Z)) :
  Forall unpickle_ok l →
  ∀ hp, let r := mapS unpickle l hp in
    hp ⊆ r.2
    ∧ mapO (pickle r.2) r.1 = Some l
    ∧ ∀ a, a ∈ flat_map handles r.1 →
           hp !! a = None ∧ ∃ state, r.2 !! a = Some (__setstate__ state).
Proof.
  induction 1 as [|x r Hx Hr IH]; intros hp; simpl.
  - split_and!; [reflexivity | done |]. by intros a ?%elem_of_nil.
  - destruct (Hx hp) as (S1 & P1 & N1).
    destruct (unpickle x hp) as [x' hp1]. simpl in *.
    destruct (IH hp1) as (S2 & P2 & N2).
    destruct (mapS unpickle r hp1) as [r' hp2]. simpl in *.
    split_and!.
    + by transitivity hp1.
    + by rewrite (pickle_mono _ _ _ S2 _ P1), P2.
    + intros a [Ha|Ha]%elem_of_app.
      * destruct (N1 a Ha) as [Hn [state Hs]]. split; [done|].
        exists state. by eapply lookup_weaken.
      * destruct (N2 a Ha) as [Hn [state Hs]]. split; [|by exists state].
        by eapply lookup_weaken_None.
Qed.

Lemma unpickle_dict_ok (l : list (string * value Z)) :
  Forall (λ kv, unpickle_ok kv.2) l →
  ∀ hp, let r := mapS (λ kv hp, let '(w, hp') := unpickle kv.2 hp in
                                ((kv.1, w), hp')) l hp in
    hp ⊆ r.2
    ∧ mapO (λ kv, match pickle r.2 kv.2 with
                  | Some w => Some (kv.1, w)
                  | None => None
                  end) r.1 = Some l
    ∧ ∀ a, a ∈ flat_map (λ kv, handles kv.2) r.1 →
           hp !! a = None ∧ ∃ state, r.2 !! a = Some (__setstate__ state).
Proof.
  induction 1 as [|[k x] r Hx Hr IH]; intros hp; simpl.
  - split_and!; [reflexivity | done |]. by intros a ?%elem_of_nil.
  - simpl in Hx. destruct (Hx hp) as (S1 & P1 & N1).
    destruct (unpickle x hp) as [x' hp1]. simpl in *.
    destruct (IH hp1) as (S2 & P2 & N2).
    destruct (mapS _ r hp1) as [r' hp2]. simpl in *.
    split_and!.
    + by transitivity hp1.
    + by rewrite (pickle_mono _ _ _ S2 _ P1), P2.
    + intros a [Ha|Ha]%elem_of_app.
      * destruct (N1 a Ha) as [Hn [state Hs]]. split; [done|].
        exists state. by eapply lookup_weaken.
      * destruct (N2 a Ha) as [Hn [state Hs]]. split; [|by exists state].
        by eapply lookup_weaken_None.
Qed.

Lemma unpickle_correct (w : value Z) : unpickle_ok w.
Proof.
  induction w using value_nested_ind; intros hp; simpl;
    try (split_and!; [reflexivity | done | by intros ? ?%elem_of_nil]).
  - destruct (unpickle_list_ok l H hp) as (S & P & N).
    destruct (mapS unpickle l hp) as [l' hp']. simpl in *.
    by rewrite P.
  - destruct (unpickle_list_ok l H hp) as (S & P & N).
    destruct (mapS unpickle l hp) as [l' hp']. simpl in *.
    by rewrite P.
  - destruct (unpickle_dict_ok l H hp) as (S & P & N).
    destruct (mapS _ l hp) as [l' hp']. simpl in *.
    by rewrite P.
  - destruct (unpickle_list_ok l H hp) as (S & P & N).
    destruct (mapS unpickle l hp) as [l' hp']. simpl in *.
    by rewrite P.
  - assert (hp !! fresh (dom hp) = None) as Hf
      by apply not_elem_of_dom, is_fresh.
    split_and!.
    + by apply insert_subseteq.
    + by rewrite lookup_insert_eq.
    + intros a ->%list_elem_of_singleton. split; [done|].
      exists h. by rewrite lookup_insert_eq.
  - destruct (IHw hp) as (S & P & N).
    destruct (unpickle w hp) as [v' hp']. simpl in *. by rewrite P.
  - destruct (unpickle_list_ok l H hp) as (S & P & N).
    destruct (mapS unpickle l hp) as [l' hp']. simpl in *.
    by rewrite P.
Qed.

Lemma vmap_getstate_setstate (w : value Z) :
  pickle_dump_value (pickle_load_value w) = w.
Proof.
  unfold pickle_dump_value, pickle_load_value.
  induction w using value_nested_ind; simpl; try done.
  - f_equal. induction H; simpl; [done|]. by f_equal.
  - f_equal. induction H; simpl; [done|]. by f_equal.
  - f_equal. induction H as [|[k x] r Hx Hr IH]; simpl in *; [done|].
    by rewrite Hx, IH.
  - f_equal. induction H; simpl; [done|]. by f_equal.
  - by f_equal.
  - f_equal. induction H; simpl; [done|]. by f_equal.
Qed.

Lemma shape_vmap {H H'} (f : H → H') (v : value H) : shape (vmap f v) = shape v.
Proof.
  unfold shape. induction v using value_nested_ind; simpl; try done.
  - f_equal. induction H0; simpl; [done|]. by f_equal.
  - f_equal. induction H0; simpl; [done|]. by f_equal.
  - f_equal. induction H0 as [|[k x] r Hx Hr IH]; simpl in *; [done|].
    by rewrite Hx, IH.
  - f_equal. induction H0; simpl; [done|]. by f_equal.
  - by f_equal.
  - f_equal. induction H0; simpl; [done|]. by f_equal.
Qed.

Lemma handles_vmap {H H'} (f : H → H') (v : value H) :
  handles (vmap f v) = map f (handles v).
Proof.
  induction v using value_nested_ind; simpl; try done.
  - induction H0; simpl; [done|]. rewrite map_app. by f_equal.
  - induction H0; simpl; [done|]. rewrite map_app. by f_equal.
  - induction H0 as [|[k x] r Hx Hr IH]; simpl in *; [done|].
    rewrite map_app. by f_equal.
  - induction H0; simpl; [done|]. rewrite map_app. by f_equal.
  - induction H0; simpl; [done|]. rewrite map_app. by f_equal.
Qed.

(** C9: the state of a handle is its id.  A handle made from this state
    has the id and no other attribute.  So a value that is pickled and
    unpickled is the same value but for its handles, which are new
    objects with the same ids: in the worker, where handles are kept by
    value, and on the host, where they are objects of the heap. *)
Theorem handle_state_is_its_id :
  (∀ h, __getstate__ h = id h)
  ∧ (∀ h, let h' := __setstate__ (__getstate__ h) in
          id h' = id h ∧ access h' = None ∧ _subprocess h' = None
          ∧ _memoize_method_dct h' = [])
  ∧ (∀ v : wvalue,
       let v' := pickle_load_value (pickle_dump_value v) in
       pickle_dump_value v' = pickle_dump_value v
       ∧ shape v' = shape v
       ∧ map id (handles v') = map id (handles v)
       ∧ Forall (λ h, access h = None ∧ _subprocess h = None) (handles v'))
  ∧ (∀ (w : value Z) hp,
       let r := unpickle w hp in
       pickle r.2 r.1 = Some w
       ∧ hp ⊆ r.2
       ∧ ∀ a, a ∈ handles r.1 →
              hp !! a = None ∧ ∃ state, r.2 !! a = Some (__setstate__ state)).
Proof.
  split; [done|]. split; [done|]. split.
  - intros v. simpl. split; [apply vmap_getstate_setstate|].
    unfold pickle_dump_value, pickle_load_value.
    split; [by rewrite !shape_vmap|].
    rewrite !handles_vmap. split.
    + rewrite !map_map. by apply map_ext.
    + apply Forall_map, Forall_map, Forall_forall. by intros.
  - intros w hp. destruct (unpickle_correct w hp) as (S & P & N). by simpl.
Qed.
End pickle_facts.

(** ** The cache of a handle *)

Section workaround_facts.
Context {S : Type}.
Context (get_compiled_method_return :
           Z → Z → string → list (value addr) → list (string * value addr) →
           S → outcome addr * S).

Local Abbreviation workaround_ := (_workaround get_compiled_method_return).
Local Abbreviation cached_ := (_cached_results get_compiled_method_return).
Local Abbreviation uncached_ := (subprocess_method get_compiled_method_return).

Lemma value_eqb_refl (v : value addr) : value_eqb Nat.eqb v v = true.
Proof.
  induction v using value_nested_ind; simpl; try done.
  - by destruct b.
  - apply Z.eqb_refl.
  - apply String.eqb_refl.
  - by apply bool_decide_eq_true.
  - induction H; simpl; [done|]. by apply andb_true_intro.
  - induction H; simpl; [done|]. by apply andb_true_intro.
  - induction H as [|[k x] r Hx Hr IH]; simpl in *; [done|].
    by rewrite String.eqb_refl, Hx, IH.
  - induction H; simpl; [done|]. by apply andb_true_intro.
  - apply Nat.eqb_refl.
  - rewrite bool_decide_true by done. simpl.
    induction H; simpl; [done|]. by apply andb_true_intro.
Qed.

Lemma key_eqb_refl (key : memo_key) : key_eqb key key = true.
Proof.
  destruct key as [args kwargs]. unfold key_eqb. simpl.
  apply andb_true_intro. split.
  - induction args as [|x r IH]; simpl; [done|].
    by rewrite value_eqb_refl, IH.
  - induction kwargs as [|[k x] r IH]; simpl; [done|].
    by rewrite String.eqb_refl, value_eqb_refl, IH.
Qed.

Lemma subprocess_method_self self name args kwargs s :
  (uncached_ self name args kwargs s).1.2 = self.
Proof.
  unfold subprocess_method. destruct (_subprocess self); [|done].
  by destruct (get_compiled_method_return _ _ _ _ _ _).
Qed.

(** A call through the cache that returned: the same call on the handle
    as it is now returns the same, and changes nothing. *)
Lemma cached_results_again self name args kwargs s r self' s' :
  cached_ self name args kwargs s = (Return r, self', s') →
  cached_ self' name args kwargs s' = (Return r, self', s').
Proof.
  unfold _cached_results, memoize_method.
  destruct (key_hashable _) eqn:Hh; [|done].
  destruct (memo_lookup (_memoize_method_dct self) _) as [r0|] eqn:Hl.
  - intros [= <- <- <-]. by rewrite Hl.
  - pose proof (subprocess_method_self self name args kwargs s) as Hself.
    destruct (uncached_ self name args kwargs s) as [[[v|e] self1] s1];
      [|done].
    simpl in Hself. subst self1. intros [= <- <- <-]. simpl.
    by rewrite key_eqb_refl.
Qed.

(** C7, amended: when the first positional argument is a slice, the
    call goes to the subprocess at once, past the cache; otherwise it
    goes through the cache, and once such a call has returned, the same
    call on the same handle returns the same result with no call to the
    subprocess. *)
Theorem workaround_routes self name args kwargs s :
  (∀ a b c rest, args = VSlice a b c :: rest →
     _workaround get_compiled_method_return self name args kwargs s
     = subprocess_method get_compiled_method_return self name args kwargs s
     ∧ (_workaround get_compiled_method_return self name args kwargs s).1.2
       = self)
  ∧ (match args with VSlice _ _ _ :: _ => False | _ => True end →
     _workaround get_compiled_method_return self name args kwargs s
     = _cached_results get_compiled_method_return self name args kwargs s
     ∧ ∀ r self' s',
         _workaround get_compiled_method_return self name args kwargs s
         = (Return r, self', s') →
         _workaround get_compiled_method_return self' name args kwargs s'
         = (Return r, self', s')).
Proof.
  split.
  - intros a b c rest ->. split; [done|]. apply subprocess_method_self.
  - intros Hns.
    assert (∀ h t, _workaround get_compiled_method_return h name args kwargs t
                   = cached_ h name args kwargs t) as E.
    { intros h t. unfold _workaround.
      destruct args as [|[] ?]; done. }
    split; [apply E|]. intros r self' s'. rewrite !E.
    apply cached_results_again.
Qed.
End workaround_facts.

(** C7, as stated, fails: a slice that is not the first positional
    argument goes through the cache, where the key cannot be hashed;
    the call raises and never reaches the subprocess, which the uncached
    call does. *)
Lemma slice_in_second_place_is_cached :
  let args : list (value addr) := [VInt 0; VSlice None (Some 2) None] in
  _workaround counting_dispatcher converted_handle "py__getitem__" args [] 0%nat
  = (Raise (Exc TypeError [VStr "unhashable type"]), converted_handle, 0%nat)
  ∧ subprocess_method counting_dispatcher converted_handle "py__getitem__" args []
      0%nat
    = (Return (VInt 1), converted_handle, 1%nat)
  ∧ ¬ slices_go_uncached counting_dispatcher converted_handle "py__getitem__"
        args [] 0%nat.
Proof.
  simpl. split_and!; try reflexivity.
  unfold slices_go_uncached. intros Hc. by specialize (Hc eq_refl).
Qed.

(** ** The theorems at concrete states *)

(** C3 at a concrete state. *)
Lemma convert_access_handles_canonical_witness :
  let obj1 : value addr := VTuple [VAccessHandle 0%nat; VList [VAccessHandle 1%nat]] in
  let obj2 : value addr :=
    VAccessPath (VList [VTuple [VStr "x"; VAccessHandle 2%nat; VAccessHandle 1%nat]]) in
  let r1 := _convert_access_handles obj1 three_handles in
  let r2 := _convert_access_handles obj2 r1.2 in
  r1.1 = VTuple [VAccessHandle 0%nat; VList [VAccessHandle 0%nat]]
  ∧ r2.1 = VAccessPath (VList [VTuple [VStr "x"; VAccessHandle 2%nat;
                                       VAccessHandle 0%nat]])
  ∧ r1.1 = canon (_handles r2.2.1) three_handles.2 obj1.
Proof.
  simpl. split; [reflexivity|]. split; [reflexivity|].
  apply (convert_access_handles_canonical
           (VTuple [VAccessHandle 0%nat; VList [VAccessHandle 1%nat]])
           (VAccessPath (VList [VTuple [VStr "x"; VAccessHandle 2%nat;
                                        VAccessHandle 1%nat]]))
           three_handles).
  - intros a Ha. simpl in Ha.
    repeat (apply elem_of_cons in Ha as [->|Ha]); try (by eexists).
    by apply elem_of_nil in Ha.
  - intros a Ha. simpl in Ha.
    repeat (apply elem_of_cons in Ha as [->|Ha]); try (by eexists).
    by apply elem_of_nil in Ha.
  - intros i a Ha. simpl in Ha. by rewrite lookup_empty in Ha.
Defined.

(** C4 at a concrete state. *)
Lemma one_session_per_context_witness :
  let count : request Z := Request (Some 7) (Some "count") [] [] in
  let w := (listen test_functions test_format_exc [count; count; count]
              (Listener__init__ 2)).2 in
  length (memory w) = 1%nat
  ∧ _infer_states (listener w) = {[ 7 := 0%nat ]}
  ∧ (attributes <$> memory w !! 0%nat) = Some {[ "n" := VInt 3 ]}.
Proof.
  simpl. split_and!; [| |reflexivity].
  - apply (one_session_per_context test_functions test_format_exc 7
             (replicate 3 (Request (Some 7) (Some "count") [] [])) 2);
      [done | repeat constructor; by eexists].
  - apply (one_session_per_context test_functions test_format_exc 7
             (replicate 3 (Request (Some 7) (Some "count") [] [])) 2);
      [done | repeat constructor; by eexists].
Defined.

(** C5 at a concrete state. *)
Lemma run_dispatches_witness :
  worker_wf one_handle
  ∧ ∃ args',
      Forall2 (exchanged {| _infer_state_id := 0; _handles := {[ 5 := live_handle ]} |})
        [VInt 1; VAccessHandle (__setstate__ 5)] args'
      ∧ calls (_run test_functions (Some 7) (Some "count")
                 [VInt 1; VAccessHandle (__setstate__ 5)] [] one_handle).2
        = [Call "count" (Some 0%nat) args' []].
Proof.
  assert (worker_wf one_handle) as Hwf.
  { intros i a Hi. simpl in Hi.
    apply lookup_singleton_Some in Hi as [_ <-]. by eexists. }
  split; [exact Hwf|].
  destruct (run_dispatches test_functions test_format_exc
              [VInt 1; VAccessHandle (__setstate__ 5)] [] one_handle Hwf)
    as (_ & _ & H3 & _).
  destruct (H3 7 "count") as (_ & s & Hs & Hx).
  simpl in Hs. injection Hs as <-.
  destruct Hx as (args' & kwargs' & Fa & Kk & Fk & _ & _ & _ & Hc).
  - repeat constructor. by eexists.
  - constructor.
  - exists args'. split; [exact Fa|].
    destruct kwargs'; [exact Hc | discriminate Kk].
Defined.

(** C1 at a concrete state. *)
Lemma crashed_is_permanent_witness :
  let os_ := world_os test_functions test_format_exc in
  let r := @_send World os_ None (Some "get_sys_path") [] [] killed_host in
  is_crashed (self killed_host) = false
  ∧ r.1 = Raise (InternalError_
                   "The subprocess python was killed. Maybe out of memory?")
  ∧ is_crashed (self r.2) = true
  ∧ ∀ later : list manager_call,
      let st' := @perform_all World os_ later r.2 in
      is_crashed (self st') = true
      ∧ os st' = os r.2
      ∧ length (os st') = 1%nat.
Proof.
  simpl. split; [reflexivity|]. split; [reflexivity|].
  destruct (crashed_is_permanent (H := world_os test_functions test_format_exc)
              None (Some "get_sys_path") [] []
              (Request None (Some "get_sys_path") [] []) killed_host)
    as (_ & Hc & Hlater).
  - reflexivity.
  - reflexivity.
  - left. eexists. split; [reflexivity|]. split; [reflexivity | by left].
  - split; [exact Hc|]. intros later.
    destruct (Hlater later) as (H1 & H2 & _). simpl in H1, H2.
    split; [exact H1|]. split; [exact H2|]. by rewrite H2.
Defined.


(** C10 at a concrete state. *)
Lemma delete_missing_context_raises_witness :
  let os_ := world_os test_functions test_format_exc in
  let r := @_send World os_ (Some 7) None [] [] started_host in
  r.1 = Raise (Exc KeyError [VStr "Traceback (most recent call last): KeyError"])
  ∧ connected r.2 0%nat (Listener__init__ 2) [deletion_request 7] "".
Proof.
  simpl.
  destruct (delete_missing_context_raises test_functions test_format_exc
              started_host 0%nat (Listener__init__ 2) [] "" 7) as [Habsent _].
  - by repeat split.
  - destruct (Habsent eq_refl) as (_ & _ & Hr & Hc). split; [exact Hr | exact Hc].
Defined.

(** C7 at a concrete state. *)
Lemma workaround_routes_witness :
  let r1 := _workaround counting_dispatcher converted_handle "py__getitem__"
              [VInt 0] [] 0%nat in
  let r2 := _workaround counting_dispatcher r1.1.2 "py__getitem__"
              [VInt 0] [] r1.2 in
  r1 = (Return (VInt 1), r1.1.2, 1%nat) ∧ r2 = r1.
Proof.
  simpl. split; [reflexivity|].
  destruct (workaround_routes counting_dispatcher converted_handle
              "py__getitem__" [VInt 0] [] 0%nat) as [_ Hcached].
  destruct (Hcached I) as [_ Hagain].
  exact (Hagain _ _ _ eq_refl).
Defined.

(** * Further properties *)

(** ** Conversion, again *)

Section convert_more.
Implicit Types (σ : _InferenceStateProcess addr * heap).

Lemma convert_list_keeps_id (l : list (value addr)) :
  Forall (λ v, ∀ σ, _infer_state_id (_convert_access_handles v σ).2.1
                    = _infer_state_id σ.1) l →
  ∀ σ, _infer_state_id (mapS _convert_access_handles l σ).2.1
       = _infer_state_id σ.1.
Proof.
  induction 1 as [|x r Hx Hr IH]; intros τ; simpl; [done|].
  specialize (Hx τ).
  destruct (_convert_access_handles x τ) as [x' τ1]. simpl in *.
  specialize (IH τ1).
  destruct (mapS _convert_access_handles r τ1) as [r' τ2].
  simpl in *. congruence.
Qed.

Lemma convert_keeps_id (v : value addr) :
  ∀ σ, _infer_state_id (_convert_access_handles v σ).2.1
       = _infer_state_id σ.1.
Proof.
  induction v using value_nested_ind; intros τ; simpl; try done.
  - pose proof (convert_list_keeps_id l H τ) as Hl.
    by destruct (mapS _convert_access_handles l τ).
  - pose proof (convert_list_keeps_id l H τ) as Hl.
    by destruct (mapS _convert_access_handles l τ).
  - pose proof (convert_list_keeps_id l H τ) as Hl.
    by destruct (mapS _convert_access_handles l τ).
  - destruct (τ.2 !! h); [|done].
    by destruct (get_access_handle τ.1 (id a)).
  - specialize (IHv τ). by destruct (_convert_access_handles v τ).
Qed.

Lemma convert_list_fixed (l : list (value addr)) σ :
  Forall (λ v, canonical_value σ v → _convert_access_handles v σ = (v, σ)) l →
  (∀ a, a ∈ flat_map walked l →
        ∃ i, id_at σ.2 a = Some i ∧ _handles σ.1 !! i = Some a) →
  mapS _convert_access_handles l σ = (l, σ).
Proof.
  induction 1 as [|x r Hx Hr IH]; intros Hc; simpl; [done|].
  rewrite Hx, IH; [done | |].
  - intros a Ha. apply Hc. simpl. apply elem_of_app. by right.
  - intros a Ha. apply Hc. simpl. apply elem_of_app. by left.
Qed.

Lemma convert_canonical_fixed (v : value addr) σ :
  canonical_value σ v → _convert_access_handles v σ = (v, σ).
Proof.
  induction v using value_nested_ind; intros Hc; simpl; try done.
  - by rewrite (convert_list_fixed l σ H Hc).
  - by rewrite (convert_list_fixed l σ H Hc).
  - by rewrite (convert_list_fixed l σ H Hc).
  - destruct (Hc h) as (i & Hi & Hr); [by left|].
    unfold id_at in Hi. destruct (σ.2 !! h) as [x|]; [|done].
    simpl in Hi. injection Hi as ->.
    unfold get_access_handle. by rewrite Hr.
  - by rewrite (IHv Hc).
Qed.

Lemma convert_result_canonical (obj : value addr) σ :
  allocated σ.2 (walked obj) → reg_consistent σ →
  canonical_value (_convert_access_handles obj σ).2
    (_convert_access_handles obj σ).1.
Proof.
  intros Hal C. destruct (convert_correct obj σ Hal) as [P E].
  intros a Ha. rewrite E, walked_canon in Ha.
  apply list_elem_of_fmap in Ha as (b & -> & Hb).
  destruct (conv_post_canonical _ _ _ b P Hal C Hb) as (i & _ & Hr & Hi).
  by exists i.
Qed.

(** X1: A value whose handles are already the registered instances comes
    back as it is, and neither the registry nor the heap changes; so
    does, in particular, a value without a handle on the walk. *)
Theorem convert_fixed_point (v : value addr) σ :
  canonical_value σ v → _convert_access_handles v σ = (v, σ).
Proof. apply convert_canonical_fixed. Qed.

(** X2: Converting twice is converting once: the result of a conversion is
    a fixed point of the next one. *)
Theorem convert_idempotent (obj : value addr) σ :
  allocated σ.2 (walked obj) → reg_consistent σ →
  let r := _convert_access_handles obj σ in
  canonical_value r.2 r.1 ∧ _convert_access_handles r.1 r.2 = r.
Proof.
  intros Hal C. simpl.
  pose proof (convert_result_canonical obj σ Hal C) as Hcan.
  split; [done|]. rewrite (convert_canonical_fixed _ _ Hcan).
  by destruct (_convert_access_handles obj σ).
Qed.

(** X3: A conversion keeps the registry consistent, makes or removes no
    object, and changes of an object nothing but its [_subprocess]. *)
Theorem convert_frame (obj : value addr) σ :
  allocated σ.2 (walked obj) → reg_consistent σ →
  let r := _convert_access_handles obj σ in
  reg_consistent r.2
  ∧ allocated r.2.2 (walked r.1)
  ∧ dom r.2.2 = dom σ.2
  ∧ ∀ a h, σ.2 !! a = Some h →
      ∃ h', r.2.2 !! a = Some h'
            ∧ id h' = id h ∧ access h' = access h
            ∧ _memoize_method_dct h' = _memoize_method_dct h
            ∧ (_subprocess h' = _subprocess h
               ∨ _subprocess h' = Some (_infer_state_id σ.1)).
Proof.
  intros Hal C. simpl.
  destruct (convert_correct obj σ Hal) as [P E].
  split; [by eapply conv_post_consistent|]. split.
  { intros a Ha. rewrite E, walked_canon in Ha.
    apply list_elem_of_fmap in Ha as (b & -> & Hb).
    destruct (conv_post_canonical _ _ _ b P Hal C Hb) as (i & _ & _ & Hi).
    by exists i. }
  destruct P as (_ & _ & Hh & _). split.
  { apply set_eq. intros a. rewrite !elem_of_dom.
    destruct (Hh a) as [-> | ->]; [done|]. by rewrite fmap_is_Some. }
  intros a h Ha. destruct (Hh a) as [Hx | Hx]; rewrite Hx, Ha; simpl.
  - exists h. split_and!; auto.
  - eexists. split; [done|]. split_and!; auto.
Qed.
End convert_more.

(** [convert_fixed_point] on a result that was converted before. *)
Lemma convert_fixed_point_witness :
  let σ := (_convert_access_handles (VList [VAccessHandle 0%nat]) three_handles).2 in
  _convert_access_handles (VTuple [VInt 3; VAccessHandle 0%nat]) σ
  = (VTuple [VInt 3; VAccessHandle 0%nat], σ).
Proof.
  apply convert_fixed_point. intros a Ha. simpl in Ha.
  apply list_elem_of_singleton in Ha as ->. by exists 7.
Defined.

(** [convert_idempotent] on the three handles. *)
Lemma convert_idempotent_witness :
  let obj : value addr := VTuple [VAccessHandle 1%nat; VAccessHandle 2%nat] in
  let r := _convert_access_handles obj three_handles in
  _convert_access_handles r.1 r.2 = r.
Proof.
  apply (convert_idempotent (VTuple [VAccessHandle 1%nat; VAccessHandle 2%nat])
           three_handles).
  - intros a Ha. simpl in Ha.
    repeat (apply elem_of_cons in Ha as [->|Ha]); try (by eexists).
    by apply elem_of_nil in Ha.
  - intros i a Ha. simpl in Ha. by rewrite lookup_empty in Ha.
Defined.

(** [convert_frame] on the three handles. *)
Lemma convert_frame_witness :
  let obj : value addr := VTuple [VAccessHandle 1%nat; VAccessHandle 2%nat] in
  let r := _convert_access_handles obj three_handles in
  reg_consistent r.2 ∧ dom r.2.2 = dom three_handles.2.
Proof.
  destruct (convert_frame (VTuple [VAccessHandle 1%nat; VAccessHandle 2%nat])
              three_handles) as (H1 & _ & H3 & _).
  - intros a Ha. simpl in Ha.
    repeat (apply elem_of_cons in Ha as [->|Ha]); try (by eexists).
    by apply elem_of_nil in Ha.
  - intros i a Ha. simpl in Ha. by rewrite lookup_empty in Ha.
  - split; [exact H1 | exact H3].
Defined.

(** ** The registry of handles *)

(** X4: [get_or_create_access_handle]: the handle it returns is the one
    registered for the id afterwards, and a second call returns the same
    handle and changes nothing.  A handle is made only when the id has
    none: it has this id, wraps the object, and belongs to this registry;
    the entries of other ids stay as they are, and every key of the
    registry remains the id of its handle. *)
Theorem get_or_create_access_handle_spec (id_ : Z)
    (self : _InferenceStateProcess AccessHandle) :
  let r := get_or_create_access_handle id_ self in
  get_access_handle r.2 id_ = Some r.1
  ∧ get_or_create_access_handle id_ r.2 = r
  ∧ (∀ j, j ≠ id_ → get_access_handle r.2 j = get_access_handle self j)
  ∧ (∀ h, get_access_handle self id_ = Some h → r = (h, self))
  ∧ (get_access_handle self id_ = None →
     id r.1 = id_ ∧ access r.1 = Some {| _obj := id_ |}
     ∧ _subprocess r.1 = Some (_infer_state_id self)
     ∧ _infer_state_id r.2 = _infer_state_id self)
  ∧ (handles_keyed_by_id self → handles_keyed_by_id r.2).
Proof.
  unfold get_or_create_access_handle, get_access_handle.
  destruct (_handles self !! id_) as [h|] eqn:Hh; simpl.
  - rewrite Hh. split_and!; try done. by intros h' [= ->].
  - split_and!; try done.
    + apply lookup_insert_eq.
    + match goal with |- context [?m !! id_] =>
        assert (m !! id_ = Some (AccessHandle__init__ (_infer_state_id self)
                                   {| _obj := id_ |} id_)) as ->
          by apply lookup_insert_eq end.
      done.
    + intros j Hj. by apply lookup_insert_ne.
    + intros Hk i h. simpl. destruct (decide (id_ = i)) as [<-|Hne].
      * rewrite lookup_insert_eq. by intros [= <-].
      * rewrite lookup_insert_ne by done. apply Hk.
Qed.

(** ** The listener, again *)

Section listener_more.
Context (functions : string → list pyobj → list (string * wvalue) →
                     outcome AccessHandle * option InferenceState).
Context (format_exc : exception AccessHandle → string).

Lemma get_infer_state_ok f i w :
  worker_ok w → worker_ok (_get_infer_state f i w).2.
Proof.
  intros [Hwf Hd]. split; [by apply get_infer_state_spec|].
  unfold _get_infer_state.
  destruct (_infer_states (listener w) !! i) as [a|] eqn:Hi; [done|].
  intros j k b. simpl.
  destruct (decide (i = j)) as [<-|Hj], (decide (i = k)) as [<-|Hk];
    rewrite ?lookup_insert_eq, ?lookup_insert_ne by done; try done.
  - intros [= <-] Hb. apply Hwf in Hb as [s Hs].
    apply lookup_lt_Some in Hs. lia.
  - intros Hb [= <-]. apply Hwf in Hb as [s Hs].
    apply lookup_lt_Some in Hs. lia.
  - apply Hd.
Qed.

Lemma worker_ok_memory w m c :
  worker_ok w → length m = length (memory w) →
  worker_ok {| listener := listener w; memory := m; calls := c |}.
Proof.
  intros [Hwf Hd] Hl. split; [|done].
  intros i a Hi. destruct (Hwf i a Hi) as [s Hs]. simpl in *.
  apply lookup_lt_is_Some. rewrite Hl. by eapply lookup_lt_Some.
Qed.

Lemma run_ok i f args kwargs w :
  worker_ok w → worker_ok (_run functions i f args kwargs w).2.
Proof.
  intros Hok. unfold _run. destruct i as [i|], f as [f|]; simpl;
    [| | by apply (worker_ok_memory w) | done].
  - pose proof (get_infer_state_ok f i w Hok) as Hok1.
    destruct (_get_infer_state f i w) as [a w1]. simpl in *.
    destruct (memory w1 !! a) as [s|]; [|done].
    destruct (exchange_args _ _) as [e|args']; [done|].
    destruct (exchange_kwargs _ _) as [e|kwargs']; [done|].
    simpl. unfold record_call. simpl.
    apply (worker_ok_memory w1); [done | apply length_insert].
  - destruct (_infer_states (listener w) !! i) as [a|] eqn:Hi; [|done].
    destruct Hok as [Hwf Hd]. split.
    + intros j b. simpl. intros [_ Hb]%lookup_delete_Some. by eapply Hwf.
    + intros j k b. simpl.
      intros [_ Hj]%lookup_delete_Some [_ Hk]%lookup_delete_Some.
      by eapply Hd.
Qed.

(** X5: The sessions of the listener stay sound: a new listener has none,
    and after any request, and after any stream of requests, every
    session in the map is in memory and belongs to one context. *)
Theorem listener_keeps_sessions_sound stdin w :
  worker_ok w →
  (∀ protocol, worker_ok (Listener__init__ protocol))
  ∧ (∀ i f args kwargs, worker_ok (_run functions i f args kwargs w).2)
  ∧ worker_ok (listen functions format_exc stdin w).2.
Proof.
  intros Hok. split; [|split].
  - intros protocol. split.
    + intros i a Hi. simpl in Hi. by rewrite lookup_empty in Hi.
    + intros i j a Hi. simpl in Hi. by rewrite lookup_empty in Hi.
  - intros. by apply run_ok.
  - revert w Hok. induction stdin as [|payload rest IH]; intros w Hok; [done|].
    simpl. pose proof (listen_step_state functions format_exc payload w) as Es.
    pose proof (run_ok (req_infer_state_id payload) (req_function payload)
                  (map (vmap __setstate__) (req_args payload))
                  (kwmap __setstate__ (req_kwargs payload)) w Hok) as H1.
    rewrite <- Es in H1.
    destruct (listen_step functions format_exc payload w) as [[resp|e] w1];
      simpl in *; [|done].
    specialize (IH w1 H1).
    by destruct (listen functions format_exc rest w1) as [[out status] w2].
Qed.

(** X6: Contexts are isolated: a request for context [i], a call or a
    deletion, leaves the session of any other context in the map and
    as it was; a call without a context leaves all of them. *)
Theorem run_leaves_other_contexts i f args kwargs w j b :
  worker_ok w → j ≠ i →
  _infer_states (listener w) !! j = Some b →
  let w' := (_run functions (Some i) f args kwargs w).2 in
  _infer_states (listener w') !! j = Some b
  ∧ memory w' !! b = memory w !! b
  ∧ ∀ g, let w0 := (_run functions None (Some g) args kwargs w).2 in
         _infer_states (listener w0) = _infer_states (listener w)
         ∧ memory w0 = memory w.
Proof.
  intros [Hwf Hd] Hne Hj. simpl. split_and!; [| |done].
  - unfold _run. destruct f as [f|]; simpl.
    + unfold _get_infer_state.
      destruct (_infer_states (listener w) !! i) as [a|] eqn:Hi; simpl.
      * destruct (memory w !! a) as [s|]; [|done].
        destruct (exchange_args _ _) as [e|args']; [done|].
        by destruct (exchange_kwargs _ _) as [e|kwargs'].
      * rewrite lookup_app_r, Nat.sub_diag by lia. simpl.
        destruct (exchange_args _ _) as [e|args']; simpl;
          [by rewrite lookup_insert_ne|].
        destruct (exchange_kwargs _ _) as [e|kwargs']; simpl;
          by rewrite lookup_insert_ne.
    + destruct (_infer_states (listener w) !! i) as [a|] eqn:Hi; [|done].
      simpl. by rewrite lookup_delete_ne.
  - destruct (Hwf j b Hj) as [sb Hsb].
    pose proof (lookup_lt_Some _ _ _ Hsb) as Hlt.
    unfold _run. destruct f as [f|]; simpl.
    + unfold _get_infer_state.
      destruct (_infer_states (listener w) !! i) as [a|] eqn:Hi; simpl.
      * assert (a ≠ b) as Hab by (intros ->; by apply Hne, (Hd j i b)).
        destruct (memory w !! a) as [s|]; [|done].
        destruct (exchange_args _ _) as [e|args']; [done|].
        destruct (exchange_kwargs _ _) as [e|kwargs']; [done|].
        simpl. by rewrite list_lookup_insert_ne.
      * rewrite lookup_app_r, Nat.sub_diag by lia. simpl.
        destruct (exchange_args _ _) as [e|args']; simpl;
          [by rewrite lookup_app_l|].
        destruct (exchange_kwargs _ _) as [e|kwargs']; simpl;
          [by rewrite lookup_app_l|].
        rewrite list_lookup_insert_ne by lia. by rewrite lookup_app_l.
    + by destruct (_infer_states (listener w) !! i).
Qed.

Lemma exchange_args_unknown reg pre h post :
  resolvable reg pre → _handles reg !! id h = None →
  exchange_args reg (pre ++ VAccessHandle h :: post)
  = inl (Exc KeyError [VInt (id h)]).
Proof.
  intros Hpre Hh. induction Hpre as [|v r Hv Hr IH]; simpl.
  - unfold get_access_handle. by rewrite Hh.
  - rewrite IH. destruct v; simpl; try done.
    destruct Hv as [live Hl]. unfold get_access_handle. by rewrite Hl.
Qed.

(** X7: A handle the session does not know: when the first positional
    argument that is a handle not in the registry of the session has id
    [n], the request raises [KeyError(n)] and no function is called;
    the session, if the request made it, stays in the map.  So the
    first request of a context cannot carry a handle. *)
Theorem run_unknown_handle i f pre h post kwargs w :
  worker_wf w →
  let a := default (length (memory w)) (_infer_states (listener w) !! i) in
  let w1 := (_get_infer_state f i w).2 in
  (∀ s, memory w1 !! a = Some s →
        resolvable (compiled_subprocess s) pre
        ∧ _handles (compiled_subprocess s) !! id h = None) →
  _run functions (Some i) (Some f) (pre ++ VAccessHandle h :: post) kwargs w
  = (Raise (Exc KeyError [VInt (id h)]), w1)
  ∧ calls w1 = calls w
  ∧ _infer_states (listener w1) !! i = Some a.
Proof.
  intros Hwf. simpl. intros Hs.
  pose proof (get_infer_state_spec f i w Hwf) as Hg. simpl in Hg.
  unfold _run.
  destruct (_get_infer_state f i w) as [a w1] eqn:Eg. simpl in *.
  destruct Hg as (Ea & Hm & [s Hmem] & Hc & _). rewrite <- Ea in *.
  destruct (Hs s Hmem) as [Hpre Hh].
  by rewrite Hmem, (exchange_args_unknown _ pre h post Hpre Hh).
Qed.

End listener_more.

(** [listener_keeps_sessions_sound] on a new listener. *)
Lemma listener_keeps_sessions_sound_witness :
  worker_ok
    (listen test_functions test_format_exc
       [Request (Some 7) (Some "count") [] []; deletion_request 7;
        Request (Some 9) (Some "count") [] []]
       (Listener__init__ 2)).2.
Proof.
  apply (listener_keeps_sessions_sound test_functions test_format_exc).
  split.
  - intros i a Hi. simpl in Hi. by rewrite lookup_empty in Hi.
  - intros i j a Hi. simpl in Hi. by rewrite lookup_empty in Hi.
Defined.

Lemma two_sessions_ok : worker_ok two_sessions.
Proof.
  split.
  - intros i a Hi. simpl in Hi.
    apply lookup_insert_Some in Hi as [[_ <-]|[_ Hi]]; [by eexists|].
    apply lookup_singleton_Some in Hi as [_ <-]. by eexists.
  - intros i j a Hi Hj. simpl in Hi, Hj.
    apply lookup_insert_Some in Hi as [[<- <-]|[? Hi]];
      apply lookup_insert_Some in Hj as [[<- Ha]|[? Hj]]; try done.
    + apply lookup_singleton_Some in Hj as [_ ?]. done.
    + apply lookup_singleton_Some in Hi as [_ ?]. subst. done.
    + apply lookup_singleton_Some in Hi as [<- _].
      by apply lookup_singleton_Some in Hj as [<- _].
Qed.

(** [run_leaves_other_contexts]: a call on context 7 and the session of
    context 9. *)
Lemma run_leaves_other_contexts_witness :
  let w' := (_run test_functions (Some 7) (Some "count") [] [] two_sessions).2 in
  _infer_states (listener w') !! 9 = Some 1%nat
  ∧ memory w' !! 1%nat = Some (InferenceState__init__ 1%nat).
Proof.
  destruct (run_leaves_other_contexts test_functions 7 (Some "count") [] []
              two_sessions 9 1%nat two_sessions_ok) as (H1 & H2 & _);
    [done | reflexivity |].
  split; [exact H1 | exact H2].
Defined.

(** [run_unknown_handle]: the first request of a context with a handle. *)
Lemma run_unknown_handle_witness :
  (_run test_functions (Some 7) (Some "count")
     [VInt 1; VAccessHandle (__setstate__ 5)] [] (Listener__init__ 2)).1
  = Raise (Exc KeyError [VInt 5]).
Proof.
  destruct (run_unknown_handle test_functions 7 "count" [VInt 1]
              (__setstate__ 5) [] [] (Listener__init__ 2)) as (H1 & _).
  - intros i a Hi. simpl in Hi. by rewrite lookup_empty in Hi.
  - intros s Hs. simpl in Hs. injection Hs as <-.
    split; [by repeat constructor | reflexivity].
  - exact (f_equal fst H1).
Defined.

(** ** The manager, again *)

Section manager_more.
Context {W : Type} `{OS W}.
Implicit Types (st : Host W).

(** [_send] leaves the queue of deletions as it is. *)
Lemma send_keeps_queue st i f args kwargs :
  _infer_state_deletion_queue (self (_send i f args kwargs st).2)
  = _infer_state_deletion_queue (self st).
Proof.
  unfold _send. destruct (is_crashed (self st)); [done|].
  pose proof (get_process_spec st) as (Hm & _ & _ & Hq & _).
  destruct (_get_process st) as [p st1]. simpl in *.
  destruct (pickle_request _ _); [|done].
  destruct (pickle_dump p _ (os st1)) as [[e|] w2]; simpl.
  - destruct (exc_type e); try done. case_bool_decide; [|done].
    simpl. pose proof (kill_spec (set_os w2 st1)) as (_ & _ & _ & Hk & _).
    by rewrite Hk.
  - rewrite (get_process_again (set_os w2 st1) p) by done. simpl.
    destruct (pickle_load p w2) as [[resp|e] w4]; simpl.
    + by destruct (unpickle _ _).
    + destruct (exc_type e); try done.
      rewrite (get_process_again (set_os w4 (set_os w2 st1)) p) by done.
      simpl. destruct (stderr_read p w4) as [[err|exc] w6]; simpl.
      * pose proof (kill_spec (set_os w6 (set_os w4 (set_os w2 st1))))
          as (_ & _ & _ & Hk & _).
        by rewrite Hk.
      * destruct (is_Exception _); [|done]. simpl.
        pose proof (kill_spec (set_os w6 (set_os w4 (set_os w2 st1))))
          as (_ & _ & _ & Hk & _).
        by rewrite Hk.
Qed.

(** X9: An error of the transport that is neither a broken pipe on the
    write nor the end of the stream on the read is raised as it is, and
    the manager is not crashed. *)
Theorem other_errors_propagate i f args kwargs wire st :
  is_crashed (self st) = false →
  pickle_request (objects st) (Request i f args kwargs) = Some wire →
  let g := _get_process st in
  let d := pickle_dump g.1 wire (os g.2) in
  let l := pickle_load g.1 d.2 in
  let r := _send i f args kwargs st in
  (∀ e, d.1 = Some e →
        ¬ (exc_type e = OSError ∧ (errno e = Some EPIPE ∨ errno e = Some EINVAL)) →
        r.1 = Raise e ∧ is_crashed (self r.2) = false ∧ os r.2 = d.2)
  ∧ (∀ e, d.1 = None → l.1 = inr e → exc_type e ≠ EOFError →
          r.1 = Raise e ∧ is_crashed (self r.2) = false ∧ os r.2 = l.2).
Proof.
  intros Hnc Hp. simpl. unfold _send. rewrite Hnc.
  pose proof (get_process_spec st) as (Hm & Hc & _ & _ & Ho).
  destruct (_get_process st) as [p st1]. simpl in *. rewrite Ho, Hp.
  destruct (pickle_dump p wire (os st1)) as [[e0|] w2]; simpl; split.
  - intros e [= <-] Hne. destruct (exc_type e0) eqn:Ht; simpl;
      try (split_and!; simpl; congruence).
    rewrite bool_decide_false; [split_and!; simpl; congruence|].
    intros Hor. by apply Hne.
  - by intros e [=].
  - by intros e [=].
  - intros e _ Hl Hne.
    rewrite (get_process_again (set_os w2 st1) p) by done. simpl.
    destruct (pickle_load p w2) as [loaded w4]. simpl in *. subst loaded.
    destruct (exc_type e) eqn:Ht; simpl;
      try (split_and!; simpl; congruence).
Qed.

Lemma delete_old_queue n :
  ∀ st, (length (_infer_state_deletion_queue (self st)) ≤ n)%nat →
    let q := _infer_state_deletion_queue (self st) in
    let d := delete_old n st in
    (d.1 = None ∧ _infer_state_deletion_queue (self d.2) = [])
    ∨ (∃ k e, (k < length q)%nat ∧ d.1 = Some e
              ∧ _infer_state_deletion_queue (self d.2) = take k q).
Proof.
  induction n as [|n IH]; intros st Hn; simpl.
  - left. split; [done|]. by apply nil_length_inv, Nat.le_0_r.
  - destruct (_infer_state_deletion_queue (self st)) as [|x q _] eqn:Hq
      using rev_ind.
    { by left. }
    rewrite deque_pop_snoc. rewrite length_app in Hn. simpl in Hn.
    pose proof (send_keeps_queue (set_queue q st) (Some x) None [] []) as Hk.
    destruct (_send (Some x) None [] [] (set_queue q st)) as [[v|e] st'];
      simpl in Hk.
    + destruct (IH st') as [[Hd Hq'] | (k & e & Hlt & Hd & Hq')].
      * rewrite Hk. lia.
      * by left.
      * right. exists k, e. rewrite Hk in Hlt, Hq'.
        rewrite length_app. simpl. split; [lia|]. split; [done|].
        rewrite Hq'. symmetry. apply take_app_le. lia.
    + right. exists (length q), e. rewrite length_app. simpl.
      split; [lia|]. split; [done|]. rewrite Hk.
      by rewrite take_app_length.
Qed.

Lemma run_empty_queue i f args kwargs st :
  _infer_state_deletion_queue (self st) = [] →
  run i f args kwargs st = _send (Some i) (Some f) args kwargs st.
Proof. intros Hq. unfold run. by rewrite Hq. Qed.

(** X10: [run] and the queue.  With nothing queued, [run] is [_send].
    Otherwise the ids are taken from the right end; after [run] the
    queue is empty, or [run] has raised while deleting and the queue
    holds what was queued first: the id whose deletion raised is gone
    with those queued after it, and is not tried again. *)
Theorem run_queue i f args kwargs st :
  let q := _infer_state_deletion_queue (self st) in
  let r := run i f args kwargs st in
  (q = [] → r = _send (Some i) (Some f) args kwargs st)
  ∧ (_infer_state_deletion_queue (self r.2) = []
     ∨ ∃ k e, (k < length q)%nat ∧ r.1 = Raise e
              ∧ _infer_state_deletion_queue (self r.2) = take k q).
Proof.
  simpl. split.
  - apply run_empty_queue.
  - unfold run.
    destruct (delete_old_queue _ st (Nat.le_refl _))
      as [[Hd Hq] | (k & e & Hlt & Hd & Hq)];
      destruct (delete_old _ st) as [[e0|] st']; simpl in *; try done.
    + left. by rewrite send_keeps_queue.
    + right. exists k, e0. by split_and!.
Qed.
End manager_more.

(** [other_errors_propagate] with a full disk. *)
Lemma other_errors_propagate_witness :
  let st := Build_Host (CompiledSubprocess__init__ "python") ∅ () in
  let r := @_send unit disk_full_os None (Some "get_sys_path") [] [] st in
  r.1 = Raise (Exc OSError [VInt ENOSPC; VStr "No space left"])
  ∧ is_crashed (self r.2) = false.
Proof.
  destruct (other_errors_propagate (H := disk_full_os)
              None (Some "get_sys_path") [] []
              (Request None (Some "get_sys_path") [] [])
              (Build_Host (CompiledSubprocess__init__ "python") ∅ ()))
    as [Hw _]; [reflexivity | reflexivity |].
  destruct (Hw (Exc OSError [VInt ENOSPC; VStr "No space left"]) eq_refl)
    as (H1 & H2 & _).
  - intros [_ [[=]|[=]]].
  - split; [exact H1 | exact H2].
Defined.

Section started_manager.
Context {W : Type} `{OS W}.
Implicit Types (st : Host W).

(** Once a process is started, [_send] starts no other: what holds of
    the world and is kept by the streams and the clean-up of a process
    still holds after [_send], and the process of the manager is the
    same. *)
Lemma send_started_world (P : W → Prop) st p i f args kwargs :
  (∀ q d w, P w → P (pickle_dump q d w).2) →
  (∀ q w, P w → P (pickle_load q w).2) →
  (∀ q w, P w → P (stderr_read q w).2) →
  (∀ q w, P w → P (_add_stderr_to_debug q w)) →
  (∀ q w, P w → P (_cleanup_process q w)) →
  _get_process_memo (self st) = Some p → P (os st) →
  let r := _send i f args kwargs st in
  P (os r.2) ∧ _get_process_memo (self r.2) = Some p.
Proof.
  intros Hd Hl Hs Ha Hc Hm HP. simpl. unfold _send.
  destruct (is_crashed (self st)); [done|].
  rewrite (get_process_again st p Hm).
  destruct (pickle_request _ _) as [wire|]; [|done].
  pose proof (Hd p wire (os st) HP) as HP2.
  destruct (pickle_dump p wire (os st)) as [[e|] w2]; simpl in *.
  - assert (P (os (_kill (set_os w2 st)))
            ∧ _get_process_memo (self (_kill (set_os w2 st))) = Some p) as Hk.
    { unfold _kill. simpl. destruct (_cleanup_callable (self st)); simpl; auto. }
    destruct (exc_type e); try done. by case_bool_decide.
  - rewrite (get_process_again (set_os w2 st) p) by done. simpl.
    pose proof (Hl p w2 HP2) as HP4.
    destruct (pickle_load p w2) as [[resp|e] w4]; simpl in *.
    + destruct (unpickle _ _). simpl. auto.
    + destruct (exc_type e); try done.
      rewrite (get_process_again (set_os w4 (set_os w2 st)) p) by done.
      simpl. pose proof (Hs p w4 HP4) as HP6.
      destruct (stderr_read p w4) as [read w6]. simpl in *.
      assert (P (_add_stderr_to_debug p
                   (os (_kill (set_os w6 (set_os w4 (set_os w2 st))))))
              ∧ _get_process_memo
                  (self (_kill (set_os w6 (set_os w4 (set_os w2 st)))))
                = Some p) as Hk.
      { unfold _kill. simpl.
        destruct (_cleanup_callable (self st)); simpl; auto. }
      destruct read as [err|exc]; [done|].
      by destruct (is_Exception _).
Qed.

(** A manager that is not crashed starts its process, if it has none,
    and goes on as one that had it. *)
Lemma send_get_process st i f args kwargs :
  is_crashed (self st) = false →
  _send i f args kwargs st = _send i f args kwargs (_get_process st).2.
Proof.
  intros Hnc.
  pose proof (get_process_spec st) as (Hm & Hc & He & _).
  unfold _send at 1 2. rewrite Hc, Hnc, He.
  destruct (_get_process st) as [p st1] eqn:Eg. simpl in *.
  by rewrite (get_process_again st1 p Hm).
Qed.
End started_manager.

(** ** The manager and a worker, again *)

Section world_more.
Context (functions : string → list pyobj → list (string * wvalue) →
                     outcome AccessHandle * option InferenceState).
Context (format_exc : exception AccessHandle → string).

Local Abbreviation send_ := (@_send World (world_os functions format_exc)).
Local Abbreviation get_process_ :=
  (@_get_process World (world_os functions format_exc)).
Local Abbreviation delete_old_ :=
  (@delete_old World (world_os functions format_exc)).
Local Abbreviation perform_ := (@perform World (world_os functions format_exc)).
Local Abbreviation perform_all_ :=
  (@perform_all World (world_os functions format_exc)).

Lemma send_processes n st i f args kwargs :
  processes n st → processes n (send_ i f args kwargs st).2.
Proof.
  assert (∀ st p, _get_process_memo (self st) = Some p →
                  length (os st) = S n →
                  let r := send_ i f args kwargs st in
                  length (os r.2) = S n
                  ∧ _get_process_memo (self r.2) = Some p) as Hstarted.
  { intros st' p Hm Hl.
    apply (send_started_world (H := world_os functions format_exc)
             (λ w, length w = S n)); try done.
    - intros q d w Hw. simpl. repeat case_match; simpl;
        rewrite ?length_insert; done.
    - intros q w Hw. simpl. repeat case_match; simpl;
        rewrite ?length_insert; done.
    - intros q w Hw. simpl. repeat case_match; simpl;
        rewrite ?length_insert; done.
    - intros q w Hw. simpl. repeat case_match; simpl;
        rewrite ?length_insert; done. }
  unfold processes. intros HI.
  destruct (is_crashed (self st)) eqn:Hc.
  { by rewrite (send_crashed (H := world_os functions format_exc)). }
  destruct (_get_process_memo (self st)) as [p|] eqn:Hm.
  - destruct HI as [-> Hl].
    destruct (Hstarted st n Hm Hl) as [Hl' Hm']. simpl in *.
    by rewrite Hm'.
  - rewrite (send_get_process (H := world_os functions format_exc)) by done.
    destruct (Hstarted (get_process_ st).2 n) as [Hl' Hm'].
    + unfold _get_process. rewrite Hm. simpl. by rewrite HI.
    + unfold _get_process. rewrite Hm. simpl. rewrite length_app. simpl. lia.
    + simpl in *. by rewrite Hm'.
Qed.

Lemma delete_old_processes k n st :
  processes n st → processes n (delete_old_ k st).2.
Proof.
  revert st. induction k as [|k IH]; intros st HI; simpl; [done|].
  destruct (deque_pop _) as [[x q]|]; [|done].
  pose proof (send_processes n (set_queue q st) (Some x) None [] [] HI) as H1.
  destruct (send_ (Some x) None [] [] (set_queue q st)) as [[v|e] st'];
    simpl in *; [by apply IH | done].
Qed.

Lemma perform_processes n c st :
  processes n st → processes n (perform_ c st).
Proof.
  intros HI. destruct c as [i f a k | i f a k | | i]; simpl.
  - by apply send_processes.
  - unfold run.
    pose proof (delete_old_processes
                  (length (_infer_state_deletion_queue (self st))) n st HI) as Hd.
    destruct (delete_old_ _ st) as [[e|] st']; simpl in *; [done|].
    by apply send_processes.
  - by apply send_processes.
  - done.
Qed.

(** X11: A manager starts at most one worker process, whatever is called on
    it and however often: from a manager without a process, the world
    gains no process, or gains exactly one, which is the one the manager
    keeps. *)
Theorem at_most_one_process (cs : list manager_call) (st : Host World) :
  _get_process_memo (self st) = None →
  let st' := perform_all (H := world_os functions format_exc) cs st in
  match _get_process_memo (self st') with
  | None => length (os st') = length (os st)
  | Some p => p = length (os st) ∧ length (os st') = S (length (os st))
  end.
Proof.
  intros Hm. simpl.
  assert (processes (length (os st)) st) as HI
    by (unfold processes; by rewrite Hm).
  clear Hm. revert HI. generalize (length (os st)) as n. intros n.
  revert st. induction cs as [|c cs IH]; intros st HI; simpl; [done|].
  apply IH. by apply perform_processes.
Qed.

Lemma connected_started st :
  is_crashed (self st) = false → _get_process_memo (self st) = None →
  connected (get_process_ st).2 (length (os st)) (Listener__init__ 2) [] "".
Proof.
  intros Hnc Hm. unfold _get_process. rewrite Hm. simpl.
  split_and!; simpl; try done.
  by rewrite lookup_app_r, Nat.sub_diag.
Qed.

(** X13: [run] with a queued context that has no session in the worker, at
    the right end of the queue: the deletion request is written, the
    [KeyError] of the worker is raised by [run], the request of the
    call is not written, and the ids queued before stay queued. *)
Theorem run_stale_deletion st p wk log err q x i f args kwargs :
  connected st p wk log err →
  _infer_state_deletion_queue (self st) = q ++ [x] →
  _infer_states (listener wk) !! x = None →
  let r := run (H := world_os functions format_exc) i f args kwargs st in
  r.1 = Raise (Exc KeyError [VStr (format_exc (Exc KeyError [VInt x]))])
  ∧ _infer_state_deletion_queue (self r.2) = q
  ∧ connected r.2 p wk (log ++ [deletion_request x]) err.
Proof.
  intros Hc Hq Hx. simpl. unfold run. rewrite Hq, length_app. simpl.
  rewrite Nat.add_1_r. simpl. rewrite Hq, deque_pop_snoc.
  pose proof (connected_set_queue st p wk log err q Hc) as Hcq.
  rewrite (send_delete_absent functions format_exc _ p wk log err x Hcq Hx).
  simpl. split_and!; [done | done |].
  exact (connected_after _ p wk log err _ _ _ Hcq).
Qed.

Lemma send_tidy st i f args kwargs :
  tidy st → tidy (send_ i f args kwargs st).2.
Proof.
  assert (∀ st p wk log err, connected st p wk log err →
                             tidy (send_ i f args kwargs st).2) as Hconn.
  { intros st' p wk log err Hc.
    destruct (pickle_request (objects st') (Request i f args kwargs))
      as [wire|] eqn:Hp.
    - rewrite (send_connected functions format_exc st' p wk log err
                 i f args kwargs wire Hc Hp).
      destruct (listen_step functions format_exc wire wk) as [[resp|e] wk1].
      + destruct (unpickle _ _) as [res hp]. simpl.
        right. right. exists p, wk1, (log ++ [wire]), err.
        by eapply connected_after.
      + left. destruct Hc as (Hnc & Hm & Hcl & Hproc).
        split_and!; simpl; try done. eexists p, _. split; [done|].
        split; [apply list_lookup_insert_eq; by eapply lookup_lt_Some | done].
    - destruct Hc as (Hnc & Hm & Hcl & Hproc).
      unfold _send. rewrite Hnc, (get_process_again st' p Hm), Hp. simpl.
      right. right. by exists p, wk, log, err. }
  intros [Hc | [[Hnc Hm] | (p & wk & log & err & Hc)]].
  - rewrite (send_crashed (H := world_os functions format_exc))
      by apply Hc.
    by left.
  - rewrite (send_get_process (H := world_os functions format_exc)) by done.
    eapply Hconn. by apply connected_started.
  - by eapply Hconn.
Qed.

Lemma set_queue_tidy q st : tidy st → tidy (set_queue q st).
Proof.
  intros [Hc | [[Hnc Hm] | (p & wk & log & err & Hc)]].
  - by left.
  - right. by left.
  - right. right. exists p, wk, log, err. by apply connected_set_queue.
Qed.

Lemma delete_old_tidy k st : tidy st → tidy (delete_old_ k st).2.
Proof.
  revert st. induction k as [|k IH]; intros st HI; simpl; [done|].
  destruct (deque_pop _) as [[x q]|]; [|done].
  pose proof (send_tidy (set_queue q st) (Some x) None [] []
                (set_queue_tidy q st HI)) as H1.
  destruct (send_ (Some x) None [] [] (set_queue q st)) as [[v|e] st'];
    simpl in *; [by apply IH | done].
Qed.

(** X14: A crash leaves nothing behind.  On a manager that is not crashed,
    and is without a process or connected to its worker, whatever is
    called and however the manager comes to be crashed: the finalizer
    of its process has run, the process is gone, and nothing of its
    output is left unread. *)
Theorem crash_cleans_up (cs : list manager_call) (st : Host World) :
  is_crashed (self st) = false → settled st →
  let st' := perform_all (H := world_os functions format_exc) cs st in
  is_crashed (self st') = true →
  _cleanup_callable (self st') = finalized
  ∧ ∃ p proc, _get_process_memo (self st') = Some p
      ∧ os st' !! p = Some proc
      ∧ running proc = None ∧ stdout_unread proc = []
      ∧ stderr_unread proc = "".
Proof.
  intros Hnc Hs. simpl.
  assert (tidy st) as HI.
  { destruct Hs as [Hc | [? | ?]]; [congruence | by right; left | by right; right]. }
  clear Hnc Hs.
  assert (tidy (perform_all_ cs st)) as HT.
  { revert st HI. induction cs as [|c cs IH]; intros st HI; simpl; [done|].
    apply IH. destruct c as [i f a k | i f a k | | i]; simpl.
    - by apply send_tidy.
    - unfold run.
      pose proof (delete_old_tidy
                    (length (_infer_state_deletion_queue (self st))) st HI) as Hd.
      destruct (delete_old_ _ st) as [[e|] st']; simpl in *; [done|].
      by apply send_tidy.
    - by apply send_tidy.
    - by apply set_queue_tidy. }
  intros Hc. destruct HT as [(_ & Hf & Hp) | [[Hnc _] | (p & wk & log & err & Hk)]].
  - by split.
  - congruence.
  - destruct Hk as (Hnc & _). congruence.
Qed.

End world_more.

(** [at_most_one_process] on a new manager. *)
Lemma at_most_one_process_witness :
  let st' := @perform_all World (world_os test_functions test_format_exc)
               [call_delete_infer_state 3; call_get_sys_path;
                call_run 7 "count" [] []; call_send None (Some "quit") [] [];
                call_get_sys_path] new_host in
  length (os st') = 1%nat ∧ is_crashed (self st') = true.
Proof.
  pose proof (at_most_one_process test_functions test_format_exc
                [call_delete_infer_state 3; call_get_sys_path;
                 call_run 7 "count" [] []; call_send None (Some "quit") [] [];
                 call_get_sys_path] new_host eq_refl) as Hone.
  simpl in Hone. destruct Hone as [_ Hone]. split; [exact Hone | reflexivity].
Defined.

(** [run_stale_deletion]: context 5 was never used. *)
Lemma run_stale_deletion_witness :
  let st := @delete_infer_state World 5 flushing_host in
  let r := @run World (world_os test_functions test_format_exc)
             8 "count" [] [] st in
  r.1 = Raise (Exc KeyError [VStr "Traceback (most recent call last): KeyError"])
  ∧ _infer_state_deletion_queue (self r.2) = [7; 9].
Proof.
  destruct (run_stale_deletion test_functions test_format_exc
              (@delete_infer_state World 5 flushing_host) 0%nat two_sessions
              [] "" [7; 9] 5 8 "count" [] []) as (H1 & H2 & _).
  - by repeat split.
  - reflexivity.
  - reflexivity.
  - split; [exact H1 | exact H2].
Defined.

(** ** A call that returns *)

Section pickle_more.
Implicit Types (hp : heap).

Lemma pickle_list_spec hp (l : list (value addr)) :
  Forall (λ x, ∀ w, pickle hp x = Some w →
                    shape w = shape x
                    ∧ Forall2 (λ a i, id_at hp a = Some i)
                        (handles x) (handles w)) l →
  ∀ l', mapO (pickle hp) l = Some l' →
    map shape l' = map shape l
    ∧ Forall2 (λ a i, id_at hp a = Some i)
        (flat_map handles l) (flat_map handles l').
Proof.
  induction 1 as [|x r Hx Hr IH]; intros l'; simpl.
  - by intros [= <-].
  - destruct (pickle hp x) as [w|] eqn:Ex; [|done].
    destruct (mapO (pickle hp) r) as [r'|] eqn:Er; [|done].
    intros [= <-]. destruct (Hx w eq_refl) as [S1 F1].
    destruct (IH r' eq_refl) as [S2 F2]. simpl. split.
    + by rewrite S1, S2.
    + by apply Forall2_app.
Qed.

Lemma pickle_dict_spec hp (l : list (string * value addr)) :
  Forall (λ kv, ∀ w, pickle hp kv.2 = Some w →
                     shape w = shape kv.2
                     ∧ Forall2 (λ a i, id_at hp a = Some i)
                         (handles kv.2) (handles w)) l →
  ∀ l', mapO (λ kv, match pickle hp kv.2 with
                    | Some w => Some (kv.1, w)
                    | None => None
                    end) l = Some l' →
    map (λ kv, (kv.1, shape kv.2)) l' = map (λ kv, (kv.1, shape kv.2)) l
    ∧ Forall2 (λ a i, id_at hp a = Some i)
        (flat_map (λ kv, handles kv.2) l) (flat_map (λ kv, handles kv.2) l').
Proof.
  induction 1 as [|[k x] r Hx Hr IH]; intros l'; simpl.
  - by intros [= <-].
  - simpl in Hx. destruct (pickle hp x) as [w|] eqn:Ex; [|done].
    destruct (mapO _ r) as [r'|] eqn:Er; [|done].
    intros [= <-]. destruct (Hx w eq_refl) as [S1 F1].
    destruct (IH r' eq_refl) as [S2 F2]. simpl. split.
    + by rewrite S1, S2.
    + by apply Forall2_app.
Qed.

(** What is pickled has the type and the order of the value, and each
    handle has become its id. *)
Lemma pickle_spec hp (v : value addr) :
  ∀ w, pickle hp v = Some w →
    shape w = shape v
    ∧ Forall2 (λ a i, id_at hp a = Some i) (handles v) (handles w).
Proof.
  induction v using value_nested_ind; intros w; simpl;
    try (intros [= <-]; split; [done | constructor]).
  - destruct (mapO (pickle hp) l) as [l'|] eqn:E; [|done]. intros [= <-].
    destruct (pickle_list_spec hp l H l' E) as [S F].
    split; [|done]. unfold shape in *. simpl. by f_equal.
  - destruct (mapO (pickle hp) l) as [l'|] eqn:E; [|done]. intros [= <-].
    destruct (pickle_list_spec hp l H l' E) as [S F].
    split; [|done]. unfold shape in *. simpl. by f_equal.
  - destruct (mapO _ l) as [l'|] eqn:E; [|done]. intros [= <-].
    destruct (pickle_dict_spec hp l H l' E) as [S F].
    split; [|done]. unfold shape in *. simpl. by f_equal.
  - destruct (mapO (pickle hp) l) as [l'|] eqn:E; [|done]. intros [= <-].
    destruct (pickle_list_spec hp l H l' E) as [S F].
    split; [|done]. unfold shape in *. simpl. by f_equal.
  - destruct (hp !! h) as [x|] eqn:E; [|done]. intros [= <-]. simpl.
    split; [done|]. repeat constructor. unfold id_at. by rewrite E.
  - destruct (pickle hp v) as [wv|] eqn:E; [|done]. intros [= <-].
    destruct (IHv wv eq_refl) as [S F].
    split; [|done]. unfold shape in *. simpl. by f_equal.
  - destruct (mapO (pickle hp) l) as [l'|] eqn:E; [|done]. intros [= <-].
    destruct (pickle_list_spec hp l H l' E) as [S F].
    split; [|done]. unfold shape in *. simpl. by f_equal.
Qed.

(** What the host reads of a pickled value of the worker: the same type
    and order, and for each handle a new object that has the id of the
    handle and nothing else. *)
Lemma unpickle_worker_value (v : wvalue) hp :
  let r := unpickle (pickle_dump_value v) hp in
  shape r.1 = shape v
  ∧ Forall2 (λ a h, r.2 !! a = Some (__setstate__ (id h)) ∧ hp !! a = None)
      (handles r.1) (handles v)
  ∧ hp ⊆ r.2.
Proof.
  simpl. destruct (unpickle_correct (pickle_dump_value v) hp) as (S & P & N).
  destruct (pickle_spec _ _ _ P) as [Sh F].
  unfold pickle_dump_value in *.
  rewrite shape_vmap in Sh. rewrite handles_vmap in F.
  split; [done|]. split; [|done].
  apply Forall2_fmap_r in F.
  destruct (unpickle (vmap __getstate__ v) hp) as [v' hp']. simpl in *.
  clear -F N. induction F as [|a h la lh Ha F IH]; constructor.
  - destruct (N a) as [Hn [state Hs]]; [by left|]. split; [|done].
    unfold id_at in Ha. rewrite Hs in Ha. simpl in Ha.
    injection Ha as ->. done.
  - apply IH. intros b Hb. apply N. by right.
Qed.
End pickle_more.

Section world_calls.
Context (functions : string → list pyobj → list (string * wvalue) →
                     outcome AccessHandle * option InferenceState).
Context (format_exc : exception AccessHandle → string).

Local Abbreviation send_ := (@_send World (world_os functions format_exc)).
Local Abbreviation run_ := (@run World (world_os functions format_exc)).
Local Abbreviation wrapper_ := (@wrapper World (world_os functions format_exc)).


Lemma run_creates_session i f args kwargs w :
  worker_wf w →
  is_Some (_infer_states (listener (_run functions (Some i) (Some f)
                                      args kwargs w).2) !! i).
Proof.
  intros Hwf. pose proof (get_infer_state_spec f i w Hwf) as Hg.
  simpl in Hg. unfold _run.
  destruct (_get_infer_state f i w) as [a w1]. simpl in *.
  destruct Hg as (_ & Hm & [s Hs] & _). rewrite Hs.
  destruct (exchange_args _ _) as [e|args']; [by eexists|].
  destruct (exchange_kwargs _ _) as [e|kwargs']; by eexists.
Qed.



End world_calls.





(** [crash_cleans_up] on a new manager whose worker is made to leave. *)
Lemma crash_cleans_up_witness :
  let st' := @perform_all World (world_os test_functions test_format_exc)
               [call_run 7 "count" [] []; call_send None (Some "quit") [] [];
                call_get_sys_path] new_host in
  is_crashed (self st') = true
  ∧ _cleanup_callable (self st') = finalized
  ∧ ∃ p proc, _get_process_memo (self st') = Some p
      ∧ os st' !! p = Some proc
      ∧ running proc = None ∧ stdout_unread proc = []
      ∧ stderr_unread proc = "".
Proof.
  split; [reflexivity|].
  apply (crash_cleans_up test_functions test_format_exc
           [call_run 7 "count" [] []; call_send None (Some "quit") [] [];
            call_get_sys_path] new_host).
  - reflexivity.
  - right. left. by split.
  - reflexivity.
Defined.

(** ** Running a function at a path *)

(** X19: [cwd_at] puts the process back where it was.  When the working
    directory has a path and this path names it, also after [func]:
    if the target is a directory, [func] runs there and the wrapper
    returns what it returns, or raises what it raises, the process being
    back in the old directory in either case; if the target is no
    directory, [func] does not run, the error of [os.chdir] is raised and
    nothing has changed. *)
Theorem cwd_at_restores repo_root path func s old :
  getcwd s = Some old →
  fs_paths s !! old = Some (fs_cwd s) →
  (∀ s1, chdir (path_join repo_root path) s = inr s1 →
         fs_paths (func s1).2 !! old = Some (fs_cwd s)) →
  let r := cwd_at repo_root path func s in
  fs_cwd r.2 = fs_cwd s
  ∧ match fs_paths s !! path_join repo_root path with
    | Some d =>
        ∃ s1, chdir (path_join repo_root path) s = inr s1
              ∧ fs_cwd s1 = d
              ∧ r.1 = (func s1).1
              ∧ fs_paths r.2 = fs_paths (func s1).2
              ∧ fs_names r.2 = fs_names (func s1).2
    | None => ∃ e, r = (Raise e, s) ∧ exc_type e = OSError
    end.
Proof.
  intros Hg Hold Hfunc. simpl. unfold cwd_at. rewrite Hg.
  unfold chdir in *.
  destruct (fs_paths s !! path_join repo_root path) as [d|] eqn:Ht.
  - specialize (Hfunc _ eq_refl).
    destruct (func _) as [res s1] eqn:Hf. simpl in *. rewrite Hfunc. simpl.
    split; [done|]. eexists. split; [done|]. rewrite Hf. split_and!; reflexivity.
  - rewrite Hold. simpl. split; [done|]. eexists. split; [by destruct s|done].
Qed.

(** [cwd_at_restores] on a function that leaves the directory and
    raises. *)
Lemma cwd_at_restores_witness :
  let r := cwd_at "/repo" "jedi" wandering small_tree in
  r.1 = Raise (Exc ValueError [VInt 2]) ∧ fs_cwd r.2 = 3.
Proof.
  split; [reflexivity|].
  apply (cwd_at_restores "/repo" "jedi" wandering small_tree "/home").
  - reflexivity.
  - reflexivity.
  - intros s1 [= <-]. reflexivity.
Defined.

(** * The channel when pickle raises *)

Section pickling_facts.
Context (functions : string → list pyobj → list (string * wvalue) →
                     outcome AccessHandle * option InferenceState).
Context (format_exc : exception AccessHandle → string).
Context (request_raises : request Z → option (exception AccessHandle)).
Context (dump_raises : wvalue → option (exception AccessHandle)).
Context (load_raises : value Z → option (exception addr)).

Local Abbreviation step_ :=
  (listen_step_pickling functions format_exc request_raises dump_raises).
Local Abbreviation loop_ :=
  (listen_pickling functions format_exc request_raises dump_raises).
Local Abbreviation psend_ :=
  (@_send World (pickling_os functions format_exc request_raises dump_raises
                   load_raises)).
Local Abbreviation pget_process_ :=
  (@_get_process World (pickling_os functions format_exc request_raises
                          dump_raises load_raises)).
Local Abbreviation pdelete_old_ :=
  (@delete_old World (pickling_os functions format_exc request_raises
                        dump_raises load_raises)).

(** A request ends the loop exactly when [ends_loop] says so. *)
Lemma step_ends payload w status :
  (∃ w', step_ payload w = (inr status, w'))
  ↔ ends_loop functions request_raises dump_raises payload w status.
Proof.
  unfold listen_step_pickling, ends_loop.
  destruct (request_raises payload) as [e|].
  - destruct (exc_type e); split;
      try (by intros [w' [= <-]]); by (intros ->; eexists).
  - simpl. destruct (_run _ _ _ _ _ w) as [[v|e] w1]; simpl.
    + destruct (dump_raises v) as [e'|]; split.
      * intros [w' [= <- _]]. by eexists.
      * intros (e0 & [= <-] & ->). by eexists.
      * by intros [w' [=]].
      * by intros (e0 & [=] & _).
    + destruct (is_Exception (exc_type e)); simpl.
      * destruct (dump_raises _) as [e'|]; split.
        -- intros [w' [= <- _]]. by eexists.
        -- intros (e0 & [= <-] & ->). by eexists.
        -- by intros [w' [=]].
        -- by intros (e0 & [=] & _).
      * split; [by intros [w' [= <- _]] | intros ->; by eexists].
Qed.

(** With a pickle that does its work, the loop is [listen]. *)
Lemma listen_pickling_total stdin w :
  listen_pickling functions format_exc never_raises never_raises stdin w
  = listen functions format_exc stdin w.
Proof.
  revert w. induction stdin as [|payload rest IH]; intros w; simpl; [done|].
  unfold listen_step_pickling, listen_step, never_raises. simpl.
  destruct (_run _ _ _ _ _ w) as [[v|e] w1]; simpl.
  - by rewrite IH.
  - destruct (is_Exception (exc_type e)); simpl; [by rewrite IH | done].
Qed.


(** One round trip of a connected manager.  The listener ends at the
    request, and the manager is crashed; or it answers, and the host
    rebuilds the response and delivers it, or cannot rebuild it: then
    [_send] raises the exception of [pickle_load], the manager is not
    crashed and the response is still on the stream (unless
    [pickle_load] raised [EOFError]). *)
Lemma send_pickling st p wk log err i f args kwargs wire :
  connected st p wk log err →
  pickle_request (objects st) (Request i f args kwargs) = Some wire →
  let crashed :=
    (Raise (InternalError_
              ("The subprocess " +:+ _executable (self st)
               +:+ " has crashed (EOFError(), stderr=" +:+ err +:+ ").")),
     Build_Host
       {| is_crashed := true;
          _pickle_protocol := _pickle_protocol (self st);
          _executable := _executable (self st);
          _infer_state_deletion_queue := _infer_state_deletion_queue (self st);
          _get_process_memo := Some p;
          _cleanup_callable := finalized |}
       (objects st)
       (<[p := {| running := None; stdin_written := log ++ [wire];
                  stdout_unread := []; stderr_unread := "" |}]> (os st))) in
  psend_ i f args kwargs st
  = match step_ wire wk with
    | (inl resp, wk') =>
        match load_raises (result resp) with
        | None =>
            let '(res, hp) := unpickle (result resp) (objects st) in
            (deliver (is_exception resp) (traceback resp) res,
             Build_Host (self st) hp
               (<[p := {| running := Some wk'; stdin_written := log ++ [wire];
                          stdout_unread := []; stderr_unread := err |}]> (os st)))
        | Some e =>
            match exc_type e with
            | EOFError => crashed
            | _ =>
                (Raise e,
                 Build_Host (self st) (objects st)
                   (<[p := {| running := Some wk';
                              stdin_written := log ++ [wire];
                              stdout_unread := [resp];
                              stderr_unread := err |}]> (os st)))
            end
        end
    | (inr _, _) => crashed
    end.
Proof.
  intros (Hnc & Hm & Hcl & Hp) Hpick.
  pose proof (lookup_lt_Some _ _ _ Hp) as Hlt.
  destruct st as [c hp w]. simpl in *.
  unfold _send, _get_process. simpl. rewrite Hnc, Hm. simpl.
  rewrite Hpick. simpl. rewrite Hp. simpl.
  destruct (step_ wire wk) as [[resp|e] wk1]; simpl.
  - rewrite Hm. simpl. rewrite list_lookup_insert_eq by done. simpl.
    destruct (load_raises (result resp)) as [e|]; simpl.
    + destruct (exc_type e); simpl; try done.
      rewrite Hm. simpl. rewrite list_lookup_insert_eq by done. simpl.
      rewrite list_insert_insert_eq.
      unfold _kill. simpl. rewrite Hcl. simpl.
      rewrite list_lookup_insert_eq by done. simpl.
      rewrite list_insert_insert_eq. by rewrite Hm.
    + rewrite list_insert_insert_eq.
      by destruct (unpickle (result resp) hp) as [res hp'].
  - rewrite Hm. simpl. rewrite list_lookup_insert_eq by done. simpl.
    rewrite Hm. simpl. rewrite list_lookup_insert_eq by done. simpl.
    rewrite list_insert_insert_eq.
    unfold _kill. simpl. rewrite Hcl. simpl.
    rewrite list_lookup_insert_eq by done. simpl.
    rewrite list_insert_insert_eq. by rewrite Hm.
Qed.

Lemma not_EOFError {A} (c : exc_class) (a b : A) :
  c ≠ EOFError → match c with EOFError => a | _ => b end = b.
Proof. by destruct c. Qed.

(** A manager whose last response could not be rebuilt: the response is
    still the first on the stream, and the next call finds it there
    and raises as the one before. *)
Lemma send_out_of_step c hp w p wk log err resp e i f args kwargs wire :
  is_crashed c = false → _get_process_memo c = Some p →
  w !! p = Some {| running := Some wk; stdin_written := log;
                   stdout_unread := [resp]; stderr_unread := err |} →
  load_raises (result resp) = Some e → exc_type e ≠ EOFError →
  pickle_request hp (Request i f args kwargs) = Some wire →
  let r := psend_ i f args kwargs (Build_Host c hp w) in
  r.1 = Raise e
  ∧ self r.2 = c
  ∧ ∃ proc, os r.2 !! p = Some proc
            ∧ stdin_written proc = log ++ [wire]
            ∧ head (stdout_unread proc) = Some resp.
Proof.
  intros Hnc Hm Hp Hl He Hpick.
  pose proof (lookup_lt_Some _ _ _ Hp) as Hlt. simpl.
  unfold _send, _get_process. simpl. rewrite Hnc, Hm. simpl.
  rewrite Hpick. simpl. rewrite Hp. simpl.
  destruct (step_ wire wk) as [[resp2|s] wk1]; simpl;
    rewrite Hm; simpl; rewrite list_lookup_insert_eq by done; simpl;
    rewrite Hl; simpl; rewrite (not_EOFError _ _ _ He); simpl;
    (split; [done|]); (split; [by destruct c|]);
    eexists; (split; [by apply list_lookup_insert_eq|]); done.
Qed.


Lemma connected_started_pickling st :
  is_crashed (self st) = false → _get_process_memo (self st) = None →
  connected (pget_process_ st).2 (length (os st)) (Listener__init__ 2) [] "".
Proof.
  intros Hnc Hm. unfold _get_process. rewrite Hm. simpl.
  split_and!; simpl; try done.
  by rewrite lookup_app_r, Nat.sub_diag.
Qed.

Lemma send_settled st i f args kwargs :
  (∀ v e, load_raises v = Some e → exc_type e = EOFError) →
  settled st → settled (psend_ i f args kwargs st).2.
Proof.
  intros Hload.
  assert (∀ st p wk log err, connected st p wk log err →
                             settled (psend_ i f args kwargs st).2) as Hconn.
  { intros st' p wk log err Hc.
    destruct (pickle_request (objects st') (Request i f args kwargs))
      as [wire|] eqn:Hp.
    - rewrite (send_pickling st' p wk log err i f args kwargs wire Hc Hp).
      destruct (step_ wire wk) as [[resp|s] wk1]; [|by left].
      destruct (load_raises (result resp)) as [e|] eqn:Hl.
      + rewrite (Hload _ _ Hl). by left.
      + destruct (unpickle _ _) as [res hp]. simpl.
        right. right. exists p, wk1, (log ++ [wire]), err.
        by eapply connected_after.
    - destruct Hc as (Hnc & Hm & Hcl & Hproc).
      unfold _send. rewrite Hnc, (get_process_again st' p Hm), Hp. simpl.
      right. right. by exists p, wk, log, err. }
  intros [Hc | [[Hnc Hm] | (p & wk & log & err & Hc)]].
  - rewrite send_crashed by done. by left.
  - rewrite send_get_process by done.
    eapply Hconn. by apply connected_started_pickling.
  - by eapply Hconn.
Qed.

Lemma set_queue_settled q st : settled st → settled (set_queue q st).
Proof.
  intros [Hc | [[Hnc Hm] | (p & wk & log & err & Hc)]].
  - by left.
  - right. by left.
  - right. right. exists p, wk, log, err. by apply connected_set_queue.
Qed.

Lemma delete_old_settled k st :
  (∀ v e, load_raises v = Some e → exc_type e = EOFError) →
  settled st → settled (pdelete_old_ k st).2.
Proof.
  intros Hload. revert st. induction k as [|k IH]; intros st HI; simpl; [done|].
  destruct (deque_pop _) as [[x q]|]; [|done].
  pose proof (send_settled (set_queue q st) (Some x) None [] [] Hload
                (set_queue_settled q st HI)) as H1.
  destruct (psend_ (Some x) None [] [] (set_queue q st)) as [[v|e] st'];
    simpl in *; [by apply IH | done].
Qed.

End pickling_facts.

(** With a pickle that never raises, the loop and the round trip are
    those of [listen] and [world_os]. *)
Section total_pickle.
Context (functions : string → list pyobj → list (string * wvalue) →
                     outcome AccessHandle * option InferenceState).
Context (format_exc : exception AccessHandle → string).

Lemma listen_step_pickling_total payload w :
  listen_step_pickling functions format_exc never_raises never_raises payload w
  = match listen_step functions format_exc payload w with
    | (inl r, w') => (inl r, w')
    | (inr e, w') => (inr (Uncaught e), w')
    end.
Proof.
  unfold listen_step_pickling, listen_step, never_raises. simpl.
  destruct (_run _ _ _ _ _ w) as [[v|e] w1]; simpl; [done|].
  by destruct (is_Exception (exc_type e)).
Qed.

Lemma pickle_dump_total process data w :
  pickle_dump (OS := pickling_os functions format_exc never_raises
                       never_raises never_raises) process data w
  = pickle_dump (OS := world_os functions format_exc) process data w.
Proof.
  simpl. destruct (w !! process) as [p|]; [|done].
  destruct (running p) as [wk|]; [|done].
  rewrite listen_step_pickling_total.
  by destruct (listen_step functions format_exc data wk) as [[r|e] w'].
Qed.

Lemma send_pickling_total i f args kwargs st :
  _send (H := pickling_os functions format_exc never_raises never_raises
                never_raises) i f args kwargs st
  = _send (H := world_os functions format_exc) i f args kwargs st.
Proof.
  unfold _send. destruct (is_crashed (self st)); [done|].
  change (@_get_process World (pickling_os functions format_exc never_raises
                                 never_raises never_raises) st)
    with (@_get_process World (world_os functions format_exc) st).
  destruct (_get_process st) as [p st1].
  destruct (pickle_request (objects st1) _) as [wire|]; [|done].
  rewrite pickle_dump_total.
  by destruct (pickle_dump p wire (os st1)) as [[e|] w2].
Qed.
End total_pickle.




